(** * obsidian_import.py: the line parser, the tokenizer and the link mapping

    A shallow embedding of [src/obsidian_import.py].  Python strings are
    sequences of Unicode code points; a code point is an [N], a string a
    list of them.  The functions of the Python library that the program
    calls ([str.split], [str.strip], [str.replace], [str.startswith],
    slicing, [re.match], [re.finditer]) are modelled in [Module Py], the
    program itself after it, one definition per source function. *)

From Stdlib Require Import ZArith NArith Ascii String.
From stdpp Require Import base list gmap.

Local Open Scope nat_scope.

(** ** The Python string library, as far as the program uses it *)

Module Py.

(** A string: the list of its code points. *)
Definition str := list N.

(** A literal, written as a Rocq string and read byte by byte. *)
Definition lit (s : string) : str :=
  map N_of_ascii (list_ascii_of_string s).

Definition len (s : str) : Z := Z.of_nat (length s).

(** [str.isspace] on one code point: the table of CPython's
    [_PyUnicode_IsWhitespace]. *)
Definition isspace (c : N) : bool :=
  ((9 <=? c) && (c <=? 13) || (28 <=? c) && (c <=? 31) || (c =? 32)
   || (c =? 133) || (c =? 160) || (c =? 5760)
   || (8192 <=? c) && (c <=? 8202) || (c =? 8232) || (c =? 8233)
   || (c =? 8239) || (c =? 8287) || (c =? 12288))%N.

(** [s.startswith(p)]. *)
Fixpoint startswith (p s : str) : bool :=
  match p, s with
  | [], _ => true
  | _ :: _, [] => false
  | a :: p', b :: s' => (a =? b)%N && startswith p' s'
  end.

(** [s.endswith(p)]: the last [len(p)] code points of [s] are [p]. *)
Definition endswith (p s : str) : bool :=
  startswith (rev p) (rev s).

(** [s.lstrip()], [s.rstrip()] and [s.strip()] without argument. *)
Fixpoint lstrip (s : str) : str :=
  match s with
  | [] => []
  | c :: rest => if isspace c then lstrip rest else s
  end.

Fixpoint rstrip (s : str) : str :=
  match s with
  | [] => []
  | c :: rest =>
      match rstrip rest with
      | [] => if isspace c then [] else [c]
      | kept => c :: kept
      end
  end.

Definition strip (s : str) : str := rstrip (lstrip s).

(** [s.split()] without argument: the maximal runs of code points that are
    not whitespace, in order.  [word] is the run being read. *)
Fixpoint split_from (word s : str) : list str :=
  match s with
  | [] => match word with [] => [] | _ => [word] end
  | c :: rest =>
      if isspace c
      then match word with
           | [] => split_from [] rest
           | _ => word :: split_from [] rest
           end
      else split_from (word ++ [c]) rest
  end.

Definition split (s : str) : list str := split_from [] s.

(** [s.split(sep)] for a separator of one code point: one piece more than
    there are separators, empty pieces kept. *)
Fixpoint split_on_from (sep : N) (piece s : str) : list str :=
  match s with
  | [] => [piece]
  | c :: rest =>
      if (c =? sep)%N
      then piece :: split_on_from sep [] rest
      else split_on_from sep (piece ++ [c]) rest
  end.

Definition split_on (sep : N) (s : str) : list str :=
  split_on_from sep [] s.

(** [s.replace(old, new)] for a non-empty [old]: the occurrences of [old]
    are found left to right and do not overlap.  [skip] counts the code
    points of an occurrence still to be passed over. *)
Fixpoint replace_from (old new : str) (skip : nat) (s : str) : str :=
  match s with
  | [] => []
  | c :: rest =>
      match skip with
      | S k => replace_from old new k rest
      | O =>
          if startswith old s
          then new ++ replace_from old new (length old - 1) rest
          else c :: replace_from old new 0 rest
      end
  end.

Definition replace (old new s : str) : str := replace_from old new 0 s.

(** Slices with non-negative bounds: [s[a:]] and [s[a:b]]. *)
Definition slice_from (a : nat) (s : str) : str := drop a s.

Definition slice (a b : nat) (s : str) : str := take (b - a) (drop a s).

(** [s[2:-2]]: the stop index is [len(s) - 2], and the slice is empty when
    it does not lie after the start. *)
Definition slice_2_m2 (s : str) : str := take (length s - 2 - 2) (drop 2 s).

(** [s[:8]]. *)
Definition slice_to_8 (s : str) : str := take 8 s.

(** One code point, written as a character. *)
Definition chr (a : ascii) : N := N_of_ascii a.

Definition in_range (lo hi : ascii) (c : N) : bool :=
  ((chr lo <=? c) && (c <=? chr hi))%N.

Definition is_chr (a : ascii) (c : N) : bool := (c =? chr a)%N.

(** [s] without the prefix [p], when it starts with it. *)
Fixpoint strip_prefix (p s : str) : option str :=
  match p, s with
  | [], _ => Some s
  | _ :: _, [] => None
  | a :: p', b :: s' => if (a =? b)%N then strip_prefix p' s' else None
  end.

(** *** The two regular expressions of the program *)

Module Re.

(** The URL pattern of [parse_by_word],
    [http[s]?://(?:[a-zA-Z]|[0-9]|[$-_@.&+]|[!*\\(\\),]|(?:%[0-9a-fA-F][0-9a-fA-F]))+],
    under [re.match]: a match must start at the first code point of the
    word and may end anywhere, so the repeated group has to match once. *)

(** The alternatives of the group that read one code point. *)
Definition url_class (c : N) : bool :=
  (in_range "a" "z" c || in_range "A" "Z" c)
  || in_range "0" "9" c
  || (in_range "$" "_" c || is_chr "@" c || is_chr "." c || is_chr "&" c
      || is_chr "+" c)
  || (is_chr "!" c || is_chr "*" c || is_chr "\" c || is_chr "(" c
      || is_chr ")" c || is_chr "," c).

Definition hex_digit (c : N) : bool :=
  in_range "0" "9" c || in_range "a" "f" c || in_range "A" "F" c.

(** The last alternative: a percent sign and two hexadecimal digits. *)
Definition url_escape (s : str) : bool :=
  match s with
  | p :: h1 :: h2 :: _ => is_chr "%" p && hex_digit h1 && hex_digit h2
  | _ => false
  end.

Definition url_group (s : str) : bool :=
  match s with
  | c :: _ => url_class c || url_escape s
  | [] => false
  end.

(** What follows [http[s]?]. *)
Definition url_tail (s : str) : bool :=
  match strip_prefix (lit "://") s with
  | Some rest => url_group rest
  | None => false
  end.

Definition match_url (word : str) : bool :=
  match strip_prefix (lit "http") word with
  | Some rest =>
      match rest with
      | c :: rest' => (is_chr "s" c && url_tail rest') || url_tail rest
      | [] => false
      end
  | None => false
  end.

(** The link pattern of [parse_line], [\[\[(.*?)\]\]].  After the two
    opening brackets the lazy [.*?] gives way to the closing brackets at
    the first place where they stand, and [.] reads any code point but the
    newline.  [close_at s k] is the length of the group when [k] code
    points of it are already read and [s] is what follows. *)
Fixpoint close_at (s : str) (k : nat) : option nat :=
  match s with
  | [] => None
  | c :: rest =>
      if is_chr "]" c && match rest with d :: _ => is_chr "]" d | [] => false end
      then Some k
      else if is_chr "010" c then None else close_at rest (S k)
  end.

(** A match that starts at the first code point of [s]: its length. *)
Definition match_link (s : str) : option nat :=
  match s with
  | a :: b :: rest =>
      if is_chr "[" a && is_chr "[" b
      then match close_at rest 0 with
           | Some k => Some (2 + k + 2)
           | None => None
           end
      else None
  | _ => None
  end.

(** [finditer]: the matches, leftmost first, each search starting where
    the previous match ended.  A match is recorded as
    [(m.group(), m.start(), m.end())], the way [parse_line] collects them.
    [pos] is the index of the first code point of [s] in the whole line,
    [skip] counts the code points of the last match still to be passed. *)
Fixpoint finditer_from (pos skip : nat) (s : str) : list (str * nat * nat) :=
  match s with
  | [] => []
  | _ :: rest =>
      match skip with
      | S k => finditer_from (S pos) k rest
      | O =>
          match match_link s with
          | Some n => (take n s, pos, pos + n) :: finditer_from (S pos) (n - 1) rest
          | None => finditer_from (S pos) 0 rest
          end
      end
  end.

Definition finditer (line : str) : list (str * nat * nat) :=
  finditer_from 0 0 line.

End Re.

End Py.

Import Py.

(** ** The program *)

(** *** Data *)

(** The dictionaries the parser builds, by their ["type"] entry; the other
    entries are the arguments, under the keys of the source. *)
#[warnings="-register-all"]
Inductive node : Type :=
| Text (marks : list str) (content : str)
| Link (content slug : str)
| Hashtag (content : str)
| Checkbox (isChecked : bool)
| Spaceship (linkedNoteId tokenId : str)
| Paragraph (tokenId : str) (content : list node)
| ListItem (content : list node) (depth : Z)
| ListNode (content : list node).

(** The ["type"] entry. *)
Definition type_of (e : node) : string :=
  match e with
  | Text _ _ => "text"
  | Link _ _ => "link"
  | Hashtag _ => "hashtag"
  | Checkbox _ => "checkbox"
  | Spaceship _ _ => "spaceship"
  | Paragraph _ _ => "paragraph"
  | ListItem _ _ => "listItem"
  | ListNode _ => "list"
  end.

(** The two shapes of the pair [parse_line] returns:
    [({"type": "list", ...}, "list")] and [(elements, "paragraph")]. *)
Inductive parsed : Type :=
| AsList (token : node)
| AsParagraph (elements : list node).

Definition content_type (p : parsed) : string :=
  match p with
  | AsList _ => "list"
  | AsParagraph _ => "paragraph"
  end.

(** *** State

    What the functions read and write besides their arguments: the source
    of random UUIDs, as the sequence of the strings [str(uuid.uuid4())] will
    return and the number already drawn, and the dictionary [mapping], which
    Python passes by reference. *)
Record world : Type := World {
  uuid4 : nat -> str;
  drawn : nat;
  mapping : gmap str str
}.

Definition M (A : Type) : Type := world -> A * world.

#[global] Instance M_ret : MRet M := fun A (a : A) w => (a, w).

#[global] Instance M_bind : MBind M := fun A B (k : A -> M B) (m : M A) w =>
  let (a, w') := m w in k a w'.

(** [mapping.get(key, default)]. *)
Definition dict_get (key default : str) : M str := fun w =>
  (match mapping w !! key with Some v => v | None => default end, w).

(** [mapping[key] = value]. *)
Definition dict_set (key value : str) : M unit := fun w =>
  (tt, World (uuid4 w) (drawn w) (<[key := value]> (mapping w))).

(** The dictionary itself, as [return mapping] hands it out. *)
Definition dict_read : M (gmap str str) := fun w => (mapping w, w).

(** [mapping = {}]. *)
Definition dict_new : M unit := fun w =>
  (tt, World (uuid4 w) (drawn w) ∅).

(** *** Functions *)

Definition generate_token_id : M str := fun w =>
  (slice_to_8 (uuid4 w (drawn w)), World (uuid4 w) (S (drawn w)) (mapping w)).

(** The title of a note file, as both passes over the folder compute it. *)
Definition title_of (filename : str) : str :=
  replace (lit "#") [] (replace (lit ".md") [] filename).

(** The inner loop of [obsidian_to_ideaflow_link_mapping]. *)
Fixpoint mapping_files (files : list str) : M unit :=
  match files with
  | [] => mret tt
  | filename :: rest =>
      (if endswith (lit ".md") filename
       then token ← generate_token_id; dict_set (title_of filename) token
       else mret tt) ;;
      mapping_files rest
  end.

(** The outer loop, over what [os.walk] yields: a directory and its files. *)
Fixpoint mapping_walk (walk : list (str * list str)) : M unit :=
  match walk with
  | [] => mret tt
  | (_, files) :: rest => mapping_files files ;; mapping_walk rest
  end.

Definition obsidian_to_ideaflow_link_mapping
    (walk : list (str * list str)) : M (gmap str str) :=
  dict_new ;; mapping_walk walk ;; dict_read.

(** The element [parse_by_word] appends for one word. *)
Definition word_element (word : str) : node :=
  if Re.match_url word then Link word word
  else if startswith (lit "#") word then Hashtag word
  else Text [] word.

(** The loop of [parse_by_word]: [i] is the index of the first of [rest]
    in [words]. *)
Fixpoint parse_words (words : list str) (i : nat) (rest : list str)
    (elements : list node) : list node :=
  match rest with
  | [] => elements
  | word :: rest' =>
      let elements := elements ++ [word_element word] in
      let elements :=
        if (Z.of_nat i <? Z.of_nat (length words) - 1)%Z
        then elements ++ [Text [] (lit " ")]
        else elements in
      parse_words words (S i) rest' elements
  end.

Definition parse_by_word (line : str) : list node :=
  let words := split line in
  parse_words words 0 words [].

(** The loop of [parse_line] over the links found. *)
Fixpoint parse_links (line : str) (links : list (str * nat * nat))
    (elements : list node) (last_pos : nat) : M (list node * nat) :=
  match links with
  | [] => mret (elements, last_pos)
  | (link, start, stop) :: rest =>
      let elements :=
        if last_pos <? start
        then elements ++ parse_by_word (slice last_pos start line)
        else elements in
      let linked_note := slice_2_m2 link in
      placeholder ← generate_token_id;
      linked_note_id ← dict_get linked_note placeholder;
      token ← generate_token_id;
      parse_links line rest (elements ++ [Spaceship linked_note_id token]) stop
  end.

Definition parse_line (line : str) : M parsed :=
  if startswith (lit "* ") line then
    let stripped_line := lstrip line in
    let leading_spaces := (len line - len stripped_line)%Z in
    let depth := (leading_spaces / 4)%Z in
    let remaining_text := slice_from 2 line in
    let content := parse_by_word remaining_text in
    token ← generate_token_id;
    mret (AsList (ListNode [ListItem [Paragraph token content] depth]))
  else if startswith (lit "- [ ] ") line || startswith (lit "- [x] ") line then
    let elements := [Checkbox (startswith (lit "- [x] ") line)] in
    let content := parse_by_word (slice_from 6 line) in
    mret (AsParagraph (elements ++ content))
  else
    let obsidian_links := Re.finditer line in
    '(elements, last_pos) ← parse_links line obsidian_links [] 0;
    let elements :=
      if last_pos <? length line
      then elements ++ parse_by_word (slice_from last_pos line)
      else elements in
    mret (AsParagraph elements).

(** The body of the loop of [convert_to_tokens]. *)
Definition convert_line (paragraph : str) (tokens : list node) : M (list node) :=
  match strip paragraph with
  | _ :: _ =>
      token_id ← generate_token_id;
      result ← parse_line paragraph;
      match result with
      | AsList token => mret (tokens ++ [token])
      | AsParagraph elements => mret (tokens ++ [Paragraph token_id elements])
      end
  | [] =>
      token_id ← generate_token_id;
      mret (tokens ++ [Paragraph token_id []])
  end.

Fixpoint convert_lines (paragraphs : list str) (tokens : list node) : M (list node) :=
  match paragraphs with
  | [] => mret tokens
  | paragraph :: rest =>
      tokens ← convert_line paragraph tokens;
      convert_lines rest tokens
  end.

Definition convert_to_tokens (content : str) : M (list node) :=
  let paragraphs := split_on (chr "010") content in
  convert_lines paragraphs [].

(** ** Vocabulary of the statements *)

(** The ["content"] entry of a word-level element, which is a string. *)
Definition content_of (e : node) : option str :=
  match e with
  | Text _ content | Link content _ | Hashtag content => Some content
  | _ => None
  end.

(** The string contents of the elements, concatenated in order. *)
Fixpoint concat_contents (elements : list node) : option str :=
  match elements with
  | [] => Some []
  | e :: rest =>
      match content_of e, concat_contents rest with
      | Some c, Some cs => Some (c ++ cs)
      | _, _ => None
      end
  end.

(** A line without URL word and without hashtag word. *)
Definition plain_words (line : str) : bool :=
  forallb (fun word => negb (Re.match_url word) && negb (startswith (lit "#") word))
          (split line).

(** Every run of whitespace replaced by one space; [in_run] tells that the
    code point before was whitespace. *)
Fixpoint collapse_from (in_run : bool) (s : str) : str :=
  match s with
  | [] => []
  | c :: rest =>
      if isspace c
      then if in_run then collapse_from true rest
           else chr " " :: collapse_from true rest
      else c :: collapse_from false rest
  end.

Definition collapse_runs (s : str) : str := collapse_from false s.

(** The cross-note references of a node, its own and those below it. *)
Fixpoint spaceships (e : node) : list node :=
  match e with
  | Spaceship _ _ => [e]
  | Paragraph _ content | ListItem content _ | ListNode content =>
      concat (map spaceships content)
  | _ => []
  end.

Definition spaceships_of (p : parsed) : list node :=
  match p with
  | AsList token => spaceships token
  | AsParagraph elements => concat (map spaceships elements)
  end.

(** Elements of the word-level parser: text, hashtag or link. *)
Definition word_level (e : node) : bool :=
  match e with
  | Text _ _ | Hashtag _ | Link _ _ => true
  | _ => false
  end.

(** A line made of links and the plain spans between them. *)
Definition link_text (title : str) : str := lit "[[" ++ title ++ lit "]]".

Fixpoint links_text (spans : list (str * str)) : str :=
  match spans with
  | [] => []
  | (plain, title) :: rest => plain ++ link_text title ++ links_text rest
  end.

Definition assemble (spans : list (str * str)) (trailing : str) : str :=
  links_text spans ++ trailing.

(** [a] stands twice in a row somewhere in [s]. *)
Fixpoint has_pair (a : ascii) (s : str) : bool :=
  match s with
  | c :: rest =>
      (is_chr a c && match rest with d :: _ => is_chr a d | [] => false end)
      || has_pair a rest
  | [] => false
  end.

(** A span before a link: no two opening brackets in a row, also not with
    the first bracket of the link. *)
Definition plain_span (plain : str) : bool :=
  negb (has_pair "[" (plain ++ [chr "["])).

(** A title: on one line, and no two closing brackets in a row, also not
    with the first closing bracket of the link. *)
Definition title_span (title : str) : bool :=
  negb (has_pair "]" (title ++ [chr "]"]))
  && forallb (fun c => negb (is_chr "010" c)) title.

Definition well_spanned (spans : list (str * str)) (trailing : str) : bool :=
  forallb (fun span => plain_span (fst span) && title_span (snd span)) spans
  && negb (has_pair "[" trailing).

(** The line goes to the last branch of [parse_line]. *)
Definition default_line (line : str) : bool :=
  negb (startswith (lit "* ") line)
  && negb (startswith (lit "- [ ] ") line)
  && negb (startswith (lit "- [x] ") line).

(** The identifier the [n]-th call of [generate_token_id] returns. *)
Definition token_id (w : world) (n : nat) : str := slice_to_8 (uuid4 w n).

(** The target of a link to [title] when [n] identifiers were drawn. *)
Definition link_target (w : world) (title : str) (n : nat) : str :=
  match mapping w !! title with
  | Some note_id => note_id
  | None => token_id w n
  end.

(** The elements of a line of links, spans parsed word by word. *)
Fixpoint span_elements (w : world) (n : nat) (spans : list (str * str)) : list node :=
  match spans with
  | [] => []
  | (plain, title) :: rest =>
      parse_by_word plain
      ++ [Spaceship (link_target w title n) (token_id w (S n))]
      ++ span_elements w (S (S n)) rest
  end.

(** What the loop of [parse_by_word] adds for the words still to read: an
    element per word and a space between two of them. *)
Fixpoint spaced (words : list str) : list node :=
  match words with
  | [] => []
  | word :: rest =>
      word_element word
      :: match rest with [] => [] | _ => Text [] (lit " ") :: spaced rest end
  end.

(** The words joined by single spaces. *)
Fixpoint join_words (words : list str) : str :=
  match words with
  | [] => []
  | word :: rest =>
      word ++ match rest with [] => [] | _ => chr " " :: join_words rest end
  end.

(** [w'] is [w] after some identifiers were drawn: the same source of
    UUIDs, the same dictionary. *)
Definition draws_only (w w' : world) : Prop :=
  uuid4 w' = uuid4 w /\ drawn w <= drawn w' /\ mapping w' = mapping w.

(** The token [convert_to_tokens] adds for [line] when the world is [w]. *)
Definition line_token (w : world) (line : str) (token : node) : Prop :=
  match strip line with
  | [] => token = Paragraph (token_id w (drawn w)) []
  | _ :: _ =>
      match fst (parse_line line (snd (generate_token_id w))) with
      | AsList item => token = item
      | AsParagraph elements => token = Paragraph (token_id w (drawn w)) elements
      end
  end.

(** The world [convert_to_tokens] is in after the line [line], when it was
    in [w] before it: one identifier is drawn for the line, and a line
    that is not blank is parsed after that. *)
Definition line_world (w : world) (line : str) : world :=
  match strip line with
  | [] => snd (generate_token_id w)
  | _ :: _ => snd (parse_line line (snd (generate_token_id w)))
  end.

(** The worlds in which the lines of a text are converted, one after the
    other, the first in [w]. *)
Fixpoint worlds_of (w : world) (lines : list str) : list world :=
  match lines with
  | [] => []
  | line :: rest => w :: worlds_of (line_world w line) rest
  end.

(** The matches [finditer] is to find in a line of links whose first code
    point has index [pos]. *)
Fixpoint matches_at (pos : nat) (spans : list (str * str)) : list (str * nat * nat) :=
  match spans with
  | [] => []
  | (plain, title) :: rest =>
      (link_text title, pos + length plain, pos + length plain + (length title + 4))
      :: matches_at (pos + length plain + (length title + 4)) rest
  end.

(** The cross-note references of a line of links, in order. *)
Fixpoint span_references (w : world) (n : nat) (spans : list (str * str)) : list node :=
  match spans with
  | [] => []
  | (_, title) :: rest =>
      Spaceship (link_target w title n) (token_id w (S n))
      :: span_references w (S (S n)) rest
  end.

(** The cross-note references [parse_line] emits for the matches of
    [finditer], in order, when [n] identifiers were drawn before. *)
Fixpoint link_references (w : world) (n : nat) (links : list (str * nat * nat))
    : list node :=
  match links with
  | [] => []
  | (link, _, _) :: rest =>
      Spaceship (link_target w (slice_2_m2 link) n) (token_id w (S n))
      :: link_references w (S (S n)) rest
  end.

(** [s] without the code points that are [a]. *)
Fixpoint without (a : ascii) (s : str) : str :=
  match s with
  | [] => []
  | c :: rest => if is_chr a c then without a rest else c :: without a rest
  end.

(** The file names of a walk, in the order of enumeration. *)
Definition walked_files (walk : list (str * list str)) : list str :=
  concat (map snd walk).

(** A source of UUIDs to run the functions on. *)
Definition uuids (n : nat) : str :=
  lit "id" ++ [(48 + N.of_nat n)%N] ++ lit "-0000-4000-8000".

Definition w0 : world := World uuids 0 ∅.

(** The ["tokenId"] entries of a node, its own and those below it. *)
Fixpoint token_ids (e : node) : list str :=
  match e with
  | Spaceship _ token => [token]
  | Paragraph token content => token :: concat (map token_ids content)
  | ListItem content _ | ListNode content => concat (map token_ids content)
  | _ => []
  end.

Definition token_ids_of (p : parsed) : list str :=
  match p with
  | AsList token => token_ids token
  | AsParagraph elements => concat (map token_ids elements)
  end.

(** The identifiers of [ids] are those of the draws number [lo] to
    [hi - 1] of the source [u], each draw used at most once. *)
Definition ids_drawn (u : nat -> str) (lo hi : nat) (ids : list str) : Prop :=
  exists draws : list nat,
    ids = map (fun n => slice_to_8 (u n)) draws
    /\ NoDup draws
    /\ Forall (fun n => lo <= n < hi) draws.

(** What a paragraph holds beside a checkbox: words and references. *)
Definition inline (e : node) : bool :=
  match e with
  | Spaceship _ _ => true
  | _ => word_level e
  end.

(** The tokens of a note: a paragraph of inline elements, after a checkbox
    marker words only, or a list of one item of depth 0 with one paragraph
    of words. *)
Definition note_token (e : node) : bool :=
  match e with
  | Paragraph _ (Checkbox _ :: content) => forallb word_level content
  | Paragraph _ content => forallb inline content
  | ListNode [ListItem [Paragraph _ content] 0%Z] => forallb word_level content
  | _ => false
  end.

(** The files of a walk that the two passes take for notes. *)
Definition markdown_files (walk : list (str * list str)) : list str :=
  List.filter (endswith (lit ".md")) (walked_files walk).

(** *** The conversion of a folder *)

(** The record of a note in the output, under the keys of the source. *)
Module Note.
Record t : Type := Make {
  id : str;
  created_at : str;
  deleted_at : option str;
  inserted_at : str;
  position : str;
  tokens : list node;
  read_all : bool;
  updated_at : str;
  position_in_pinned : option str;
  folder_id : option str;
  import_source : str;
  import_batch : option str;
  import_foreign_id : option str
}.
End Note.

(** The document handed to [json.dump]. *)
Module Output.
Record t : Type := Make {
  version : str;
  notes : gmap str Note.t
}.
End Output.

(** The exceptions that end a run of [obsidian_to_ideaflow] before the
    document is built: the one of [open(full_path, ...)] or [f.read()] for
    a file that cannot be opened or decoded, and the [KeyError] of
    [mapping[title]]. *)
Inductive error : Type :=
| ReadError
| KeyError.

(** How a run ends: with a value, or with an exception raised. *)
Inductive outcome (A : Type) : Type :=
| Returned (a : A)
| Raised (e : error).

Arguments Returned {A} a.
Arguments Raised {A} e.

(** What [obsidian_to_ideaflow] takes from outside besides the walks: for
    the file [os.path.join(root, filename)] the text [f.read()] returns,
    or [None] when opening or reading it raises, and the string
    [datetime.utcnow().isoformat()] returns at its [n]-th call. *)
Record outside : Type := Outside {
  read : str -> str -> option str;
  utcnow_isoformat : nat -> str
}.

(** [mapping[key]]; [None] stands for the [KeyError]. *)
Definition dict_item (key : str) : M (option str) := fun w =>
  (mapping w !! key, w).

(** [timestamp.split('T')[0].replace('-', '')]. *)
Definition inserted_at_of (timestamp : str) : str :=
  replace (lit "-") [] (hd [] (split_on (chr "T") timestamp)).

(** The inner loop of [obsidian_to_ideaflow]: [clock] counts the calls of
    [utcnow].  The file is read before its title is looked up, and the
    first exception ends the run. *)
Fixpoint notes_files (o : outside) (root : str) (files : list str)
    (ideaflow_notes : gmap str Note.t) (clock : nat)
    : M (outcome (gmap str Note.t * nat)) :=
  match files with
  | [] => mret (Returned (ideaflow_notes, clock))
  | filename :: rest =>
      if endswith (lit ".md") filename then
        match read o root filename with
        | None => mret (Raised ReadError)
        | Some content =>
            let title := replace (lit "#") [] (replace (lit ".md") [] filename) in
            found ← dict_item title;
            match found with
            | None => mret (Raised KeyError)
            | Some note_id =>
                tokens ← convert_to_tokens (title ++ [chr "010"] ++ content);
                let timestamp := utcnow_isoformat o clock ++ lit "Z" in
                let note_data :=
                  Note.Make note_id timestamp None (inserted_at_of timestamp)
                            (lit "aC") tokens false timestamp None None
                            (lit "Obsidian") None None in
                notes_files o root rest (<[note_id := note_data]> ideaflow_notes)
                            (S clock)
            end
        end
      else notes_files o root rest ideaflow_notes clock
  end.

(** The outer loop, over the second walk. *)
Fixpoint notes_walk (o : outside) (walk : list (str * list str))
    (ideaflow_notes : gmap str Note.t) (clock : nat)
    : M (outcome (gmap str Note.t * nat)) :=
  match walk with
  | [] => mret (Returned (ideaflow_notes, clock))
  | (root, files) :: rest =>
      result ← notes_files o root files ideaflow_notes clock;
      match result with
      | Raised e => mret (Raised e)
      | Returned (ideaflow_notes, clock) => notes_walk o rest ideaflow_notes clock
      end
  end.

(** [obsidian_to_ideaflow], up to the document it writes: [first_walk] is
    what [os.walk] yields for the mapping, [second_walk] what it yields
    for the notes. *)
Definition obsidian_to_ideaflow (o : outside)
    (first_walk second_walk : list (str * list str)) : M (outcome Output.t) :=
  _ ← obsidian_to_ideaflow_link_mapping first_walk;
  result ← notes_walk o second_walk ∅ 0;
  match result with
  | Raised e => mret (Raised e)
  | Returned (ideaflow_notes, _) =>
      mret (Returned (Output.Make (lit "08212023") ideaflow_notes))
  end.

(** Every note file of the walk can be opened and read. *)
Definition readable (o : outside) (walk : list (str * list str)) : Prop :=
  forall root files filename,
    (root, files) ∈ walk -> filename ∈ files ->
    endswith (lit ".md") filename = true ->
    is_Some (read o root filename).

(** An outside to run the conversion on: every file reads the same, but
    the file [Locked.md], which cannot be read. *)
Definition o0 : outside :=
  Outside (fun root filename =>
             if startswith (lit "Locked") filename then None
             else Some (lit "Hello [[Note B]]"))
          (fun n => lit "2023-08-21T10:00:0" ++ [(48 + N.of_nat n)%N]).

(** The record built for the file [filename] of text [content] at the
    [clock]-th call of [utcnow], when the mapping gives [note_id] for its
    title. *)
Definition file_note (o : outside) (filename content : str) (clock : nat)
    (note_id : str) (w : world) : Note.t :=
  Note.Make note_id (utcnow_isoformat o clock ++ lit "Z") None
            (inserted_at_of (utcnow_isoformat o clock ++ lit "Z"))
            (lit "aC")
            (fst (convert_to_tokens (title_of filename ++ [chr "010"] ++ content) w))
            false (utcnow_isoformat o clock ++ lit "Z") None None
            (lit "Obsidian") None None.

(** A folder of two notes, the document made of it and one of its notes. *)
Definition walk0 : list (str * list str) :=
  [(lit "vault", [lit "Note A.md"; lit "Note B.md"])].

Definition document0 : Output.t :=
  match fst (obsidian_to_ideaflow o0 walk0 walk0 w0) with
  | Returned document => document
  | Raised _ => Output.Make [] ∅
  end.

Definition note0 : Note.t :=
  default (file_note o0 [] [] 0 [] w0) (Output.notes document0 !! lit "id0-0000").

(** ** Proofs *)

(** Literals are evaluated to their code points. *)
Ltac eval_lits :=
  repeat match goal with
  | |- context [lit ?s] =>
      let v := eval vm_compute in (lit s) in change (lit s) with v
  | H : context [lit ?s] |- _ =>
      let v := eval vm_compute in (lit s) in change (lit s) with v in H
  end.

Lemma startswith_app (p rest : str) : startswith p (p ++ rest) = true.
Proof.
  induction p as [|a p IH]; simpl; [done|].
  by rewrite N.eqb_refl.
Qed.

Lemma startswith_inv (p s : str) :
  startswith p s = true -> exists rest, s = p ++ rest.
Proof.
  revert s. induction p as [|a p IH]; intros s H.
  - by exists s.
  - destruct s as [|b s]; simpl in H; [done|].
    apply andb_prop in H as [Hab Hp]. apply N.eqb_eq in Hab as ->.
    destruct (IH _ Hp) as [rest ->]. by exists rest.
Qed.

(** *** The string library on examples *)

Example split_words :
  split (lit "  take   the bus ") = [lit "take"; lit "the"; lit "bus"].
Proof. reflexivity. Qed.

Example split_on_newlines :
  split_on (chr "010") (lit "a" ++ [chr "010"; chr "010"] ++ lit "b" ++ [chr "010"])
  = [lit "a"; []; lit "b"; []].
Proof. reflexivity. Qed.

Example strip_both_sides : strip (lit "  a b  ") = lit "a b".
Proof. reflexivity. Qed.

Example replace_every_occurrence :
  replace (lit ".md") [] (lit "x.md.md") = lit "x".
Proof. reflexivity. Qed.

Example match_url_examples :
  Re.match_url (lit "http://x.com") = true
  /\ Re.match_url (lit "https://x.com/a?b=1") = true
  /\ Re.match_url (lit "https://") = false
  /\ Re.match_url (lit "ftp://x.com") = false
  /\ Re.match_url (lit "see:http://x.com") = false.
Proof. by repeat split. Qed.

Example finditer_two_links :
  Re.finditer (lit "[[A]] x [[B]]") = [(lit "[[A]]", 0, 5); (lit "[[B]]", 8, 13)].
Proof. reflexivity. Qed.

Example finditer_brackets_in_a_row :
  Re.finditer (lit "[[[a]]]") = [(lit "[[[a]]", 0, 6)].
Proof. reflexivity. Qed.

Lemma lstrip_snoc (s : str) (c : N) :
  lstrip (s ++ [c])
  = match lstrip s with
    | [] => if isspace c then [] else [c]
    | kept => kept ++ [c]
    end.
Proof.
  induction s as [|a s IH]; [done|].
  cbn [app lstrip]. by destruct (isspace a).
Qed.

(** [rstrip] is [lstrip] read from the right. *)
Lemma rstrip_rev (s : str) : rstrip s = rev (lstrip (rev s)).
Proof.
  induction s as [|c s IH]; [done|].
  cbn [rstrip rev]. rewrite lstrip_snoc, IH.
  destruct (lstrip (rev s)) as [|a kept]; [by destruct (isspace c)|].
  rewrite rev_app_distr. cbn [rev app].
  by destruct (rev kept ++ [a]) eqn:Hrev; [destruct (rev kept)|].
Qed.

Lemma length_split_on_from (sep : N) (piece s : str) :
  length (split_on_from sep piece s)
  = S (length (List.filter (fun c => (c =? sep)%N) s)).
Proof.
  revert piece. induction s as [|c s IH]; intros piece; [done|].
  cbn [split_on_from List.filter]. destruct (c =? sep)%N; simpl; by rewrite IH.
Qed.

(** [split] at a separator gives one piece more than there are separators. *)
Lemma length_split_on (sep : N) (s : str) :
  length (split_on sep s) = S (length (List.filter (fun c => (c =? sep)%N) s)).
Proof. apply length_split_on_from. Qed.

#[local] Arguments is_chr : simpl never.

(** Tests of a given code point are decided. *)
Ltac eval_chrs :=
  repeat match goal with
  | |- context [is_chr ?a ?n] =>
      let v := eval vm_compute in (is_chr a n) in
      match v with
      | true => change (is_chr a n) with true
      | false => change (is_chr a n) with false
      end
  | H : context [is_chr ?a ?n] |- _ =>
      let v := eval vm_compute in (is_chr a n) in
      match v with
      | true => change (is_chr a n) with true in H
      | false => change (is_chr a n) with false in H
      end
  end.

(** *** [parse_by_word] *)

Lemma parse_by_word_nil : parse_by_word [] = [].
Proof. reflexivity. Qed.

(** C8: on the empty string [parse_by_word] returns the empty list: no
    word element and no separating space. *)
Theorem parse_by_word_empty_input : parse_by_word (lit "") = [].
Proof. reflexivity. Qed.

Lemma parse_words_spaced (words pre rest : list str) (elements : list node) :
  words = pre ++ rest ->
  parse_words words (length pre) rest elements = elements ++ spaced rest.
Proof.
  revert pre elements. induction rest as [|word rest IH]; intros pre elements Hw.
  - simpl. by rewrite app_nil_r.
  - simpl parse_words.
    assert (Hlen : length words = length pre + S (length rest)).
    { by rewrite Hw, length_app. }
    replace (S (length pre)) with (length (pre ++ [word]))
      by (rewrite length_app; simpl; lia).
    rewrite IH by (by rewrite <- app_assoc).
    destruct rest as [|word' rest].
    + destruct (Z.ltb_spec (Z.of_nat (length pre)) (Z.of_nat (length words) - 1));
        [simpl in Hlen; lia|].
      simpl. by rewrite <- app_assoc.
    + destruct (Z.ltb_spec (Z.of_nat (length pre)) (Z.of_nat (length words) - 1));
        [|simpl in Hlen; lia].
      cbn [spaced]. by rewrite <- !app_assoc.
Qed.

Lemma parse_by_word_spaced (line : str) : parse_by_word line = spaced (split line).
Proof.
  unfold parse_by_word. by rewrite (parse_words_spaced _ [] (split line) []).
Qed.

Lemma content_of_word_element (word : str) :
  content_of (word_element word) = Some word.
Proof.
  unfold word_element.
  destruct (Re.match_url word); [done|].
  by destruct (startswith (lit "#") word).
Qed.

Lemma word_level_word_element (word : str) : word_level (word_element word) = true.
Proof.
  unfold word_element.
  destruct (Re.match_url word); [done|].
  by destruct (startswith (lit "#") word).
Qed.

Lemma concat_contents_spaced (words : list str) :
  concat_contents (spaced words) = Some (join_words words).
Proof.
  induction words as [|word rest IH]; [done|].
  cbn [spaced concat_contents join_words]. rewrite content_of_word_element.
  destruct rest as [|word' rest]; [done|].
  cbn [concat_contents content_of]. by rewrite IH.
Qed.

Lemma word_level_spaced (words : list str) : forallb word_level (spaced words) = true.
Proof.
  induction words as [|word rest IH]; [done|].
  cbn [spaced forallb]. rewrite word_level_word_element.
  destruct rest as [|word' rest]; [done|]. exact IH.
Qed.

Lemma word_level_parse_by_word (line : str) :
  forallb word_level (parse_by_word line) = true.
Proof. rewrite parse_by_word_spaced. apply word_level_spaced. Qed.

Lemma spaceships_word_level (elements : list node) :
  forallb word_level elements = true -> concat (map spaceships elements) = [].
Proof.
  induction elements as [|e rest IH]; [done|].
  simpl. intros H. apply andb_prop in H as [He Hrest].
  rewrite (IH Hrest). by destruct e.
Qed.

Lemma spaceships_parse_by_word (line : str) :
  concat (map spaceships (parse_by_word line)) = [].
Proof. apply spaceships_word_level, word_level_parse_by_word. Qed.

(** *** Whitespace: [split], [strip] and the collapsed line *)

Lemma split_from_word (word s : str) :
  word <> [] -> exists first rest, split_from word s = first :: rest.
Proof.
  revert word. induction s as [|c s IH]; intros word Hne.
  - destruct word; [done|]. simpl. eauto.
  - simpl. destruct (isspace c).
    + destruct word; [done|]. eauto.
    + apply IH. by destruct word.
Qed.

Lemma split_nil_rstrip (s : str) : split_from [] s = [] <-> rstrip s = [].
Proof.
  induction s as [|c s IH]; [done|].
  simpl. destruct (isspace c) eqn:Hc.
  - rewrite IH. by destruct (rstrip s).
  - destruct (split_from_word [c] s) as (first & rest & ->); [done|].
    by destruct (rstrip s).
Qed.

Lemma join_split_from (s : str) :
  (forall word, word <> [] ->
     join_words (split_from word s) = word ++ collapse_from false (rstrip s))
  /\ join_words (split_from [] s) = collapse_from true (rstrip s).
Proof.
  induction s as [|c s [IHword IHnil]]; split.
  - intros word Hne. destruct word; [done|]. simpl. by rewrite app_nil_r.
  - done.
  - intros word Hne. simpl. destruct (isspace c) eqn:Hc.
    + destruct word as [|a word]; [done|].
      cbn [join_words].
      destruct (split_from [] s) as [|first rest] eqn:Hs.
      * apply split_nil_rstrip in Hs. by rewrite Hs.
      * rewrite IHnil.
        destruct (rstrip s) as [|d kept] eqn:Hr.
        { apply split_nil_rstrip in Hr. congruence. }
        cbn [collapse_from]. by rewrite Hc.
    + rewrite IHword by (by destruct word).
      rewrite <- app_assoc. f_equal.
      destruct (rstrip s); simpl; by rewrite Hc.
  - simpl. destruct (isspace c) eqn:Hc.
    + rewrite IHnil. destruct (rstrip s) as [|d kept] eqn:Hr; [done|].
      cbn [collapse_from]. by rewrite Hc.
    + rewrite IHword by done.
      destruct (rstrip s); simpl; by rewrite Hc.
Qed.

Lemma collapse_lstrip (s : str) :
  collapse_from true (rstrip s) = collapse_from false (rstrip (lstrip s)).
Proof.
  induction s as [|c s IH]; [done|].
  simpl. destruct (isspace c) eqn:Hc.
  - rewrite <- IH. destruct (rstrip s); [done|].
    cbn [collapse_from]. by rewrite Hc.
  - cbn [rstrip]. rewrite Hc. destruct (rstrip s); simpl; by rewrite Hc.
Qed.

Lemma join_split_collapse (line : str) :
  join_words (split line) = collapse_runs (strip line).
Proof.
  unfold split, collapse_runs, strip.
  rewrite <- collapse_lstrip. apply join_split_from.
Qed.

Lemma spaced_plain (words : list str) :
  forallb (fun word => negb (Re.match_url word) && negb (startswith (lit "#") word))
          words = true ->
  Forall (fun e => type_of e = "text"%string) (spaced words).
Proof.
  induction words as [|word rest IH]; intros H; [constructor|].
  cbn [forallb] in H. apply andb_prop in H as [Hword Hrest].
  apply andb_prop in Hword as [Hurl Hhash].
  cbn [spaced]. constructor.
  - unfold word_element.
    apply negb_true_iff in Hurl, Hhash. by rewrite Hurl, Hhash.
  - destruct rest as [|word' rest]; [constructor|].
    constructor; [done|]. by apply IH.
Qed.

(** C3, as the claim states it, fails on a line that starts with
    whitespace: of [" a"] the parser keeps the word only, the collapsed
    line keeps a space before it. *)
Lemma collapsed_line_counterexample :
  plain_words (lit " a") = true
  /\ concat_contents (parse_by_word (lit " a")) <> Some (collapse_runs (lit " a")).
Proof. split; [reflexivity|]. vm_compute. discriminate. Qed.

(** C3, amended: on a line without URL and hashtag words every element of
    [parse_by_word] is a text element, and their contents, concatenated in
    order, are the line stripped of the whitespace around it, with every
    run of whitespace inside replaced by one space. *)
Theorem parse_by_word_contents (line : str) :
  plain_words line = true ->
  concat_contents (parse_by_word line) = Some (collapse_runs (strip line))
  /\ Forall (fun e => type_of e = "text"%string) (parse_by_word line).
Proof.
  intros Hplain. rewrite parse_by_word_spaced. split.
  - rewrite concat_contents_spaced. f_equal. apply join_split_collapse.
  - by apply spaced_plain.
Qed.

Lemma parse_by_word_contents_witness :
  plain_words (lit "  take   the bus ") = true
  /\ concat_contents (parse_by_word (lit "  take   the bus "))
     = Some (collapse_runs (strip (lit "  take   the bus ")))
  /\ Forall (fun e => type_of e = "text"%string)
            (parse_by_word (lit "  take   the bus ")).
Proof.
  split; [reflexivity|].
  apply (parse_by_word_contents (lit "  take   the bus ")). reflexivity.
Defined.

(** *** [parse_line]: the list and the checkbox branch *)

Lemma checkbox_not_bullet (line : str) :
  startswith (lit "- [ ] ") line = true \/ startswith (lit "- [x] ") line = true ->
  startswith (lit "* ") line = false.
Proof.
  intros [H|H]; apply startswith_inv in H as [rest ->]; reflexivity.
Qed.

Lemma parse_line_bullet (line : str) (w : world) :
  startswith (lit "* ") line = true ->
  parse_line line w
  = (AsList (ListNode [ListItem [Paragraph (token_id w (drawn w))
                                           (parse_by_word (slice_from 2 line))]
                                ((len line - len (lstrip line)) / 4)%Z]),
     World (uuid4 w) (S (drawn w)) (mapping w)).
Proof. intros H. unfold parse_line. by rewrite H. Qed.

Lemma parse_line_box (line : str) (w : world) :
  startswith (lit "- [ ] ") line = true \/ startswith (lit "- [x] ") line = true ->
  parse_line line w
  = (AsParagraph (Checkbox (startswith (lit "- [x] ") line)
                  :: parse_by_word (slice_from 6 line)), w).
Proof.
  intros H. unfold parse_line. rewrite (checkbox_not_bullet _ H).
  assert (startswith (lit "- [ ] ") line || startswith (lit "- [x] ") line = true)
    as -> by (destruct H as [-> | ->]; [done | apply orb_true_r]).
  done.
Qed.

(** C6: a line that starts with ["- [ ] "] or ["- [x] "] is parsed to a
    result of kind paragraph whose first element is the checkbox marker,
    checked exactly when the line starts with ["- [x] "], followed by the
    elements of [parse_by_word] on the line after its first 6 code points. *)
Theorem parse_line_checkbox (line : str) (w : world) :
  startswith (lit "- [ ] ") line = true \/ startswith (lit "- [x] ") line = true ->
  exists checked,
    parse_line line w
    = (AsParagraph (Checkbox checked :: parse_by_word (slice_from 6 line)), w)
    /\ (checked = true <-> startswith (lit "- [x] ") line = true)
    /\ content_type (fst (parse_line line w)) = "paragraph"%string.
Proof.
  intros H. exists (startswith (lit "- [x] ") line).
  rewrite (parse_line_box _ _ H). done.
Qed.

Lemma parse_line_checkbox_witness :
  exists checked,
    parse_line (lit "- [x] call  #home") w0
    = (AsParagraph (Checkbox checked
                    :: parse_by_word (slice_from 6 (lit "- [x] call  #home"))), w0)
    /\ (checked = true <-> startswith (lit "- [x] ") (lit "- [x] call  #home") = true)
    /\ content_type (fst (parse_line (lit "- [x] call  #home") w0)) = "paragraph"%string.
Proof.
  apply (parse_line_checkbox (lit "- [x] call  #home") w0).
  right. reflexivity.
Defined.

(** C10: a line that [parse_line] takes for a list item or for a checkbox
    line has its remainder parsed by [parse_by_word] alone: the result holds
    the word-level elements of the remainder, no cross-note reference,
    whatever links the remainder contains, and it does not depend on the
    mapping. *)
Theorem bullet_and_checkbox_lines_resolve_no_link (line : str) (w : world) :
  startswith (lit "* ") line = true
  \/ startswith (lit "- [ ] ") line = true
  \/ startswith (lit "- [x] ") line = true ->
  ((exists token depth,
      fst (parse_line line w)
      = AsList (ListNode [ListItem [Paragraph token (parse_by_word (slice_from 2 line))]
                                   depth])
      /\ forallb word_level (parse_by_word (slice_from 2 line)) = true)
   \/ (exists checked,
      fst (parse_line line w)
      = AsParagraph (Checkbox checked :: parse_by_word (slice_from 6 line))
      /\ forallb word_level (parse_by_word (slice_from 6 line)) = true))
  /\ spaceships_of (fst (parse_line line w)) = []
  /\ forall notes,
       fst (parse_line line (World (uuid4 w) (drawn w) notes)) = fst (parse_line line w).
Proof.
  intros [H|H].
  - split; [|split].
    + left. rewrite (parse_line_bullet _ _ H). simpl.
      eexists _, _. split; [done|]. apply word_level_parse_by_word.
    + rewrite (parse_line_bullet _ _ H). simpl.
      by rewrite spaceships_parse_by_word.
    + intros notes. by rewrite !(parse_line_bullet _ _ H).
  - split; [|split].
    + right. rewrite (parse_line_box _ _ H). simpl.
      eexists. split; [done|]. apply word_level_parse_by_word.
    + rewrite (parse_line_box _ _ H). simpl.
      apply spaceships_parse_by_word.
    + intros notes. by rewrite !(parse_line_box _ _ H).
Qed.

Lemma bullet_and_checkbox_lines_resolve_no_link_witness :
  spaceships_of (fst (parse_line (lit "* see [[Note B]]")
                                 (World uuids 0 {[ lit "Note B" := lit "0a1b2c3d" ]})))
  = [].
Proof.
  apply (bullet_and_checkbox_lines_resolve_no_link (lit "* see [[Note B]]")).
  left. reflexivity.
Defined.

(** *** The world is only read, but for the identifiers drawn *)

Lemma draws_only_refl (w : world) : draws_only w w.
Proof. by repeat split. Qed.

Lemma draws_only_trans (w1 w2 w3 : world) :
  draws_only w1 w2 -> draws_only w2 w3 -> draws_only w1 w3.
Proof.
  intros (Hu & Hd & Hm) (Hu' & Hd' & Hm'). repeat split; [congruence|lia|congruence].
Qed.

Lemma generate_token_id_draws (w : world) :
  draws_only w (snd (generate_token_id w)).
Proof. repeat split; simpl; lia. Qed.

Lemma parse_links_world (line : str) (links : list (str * nat * nat))
    (elements : list node) (last_pos : nat) (w : world) :
  snd (parse_links line links elements last_pos w)
  = World (uuid4 w) (drawn w + 2 * length links) (mapping w).
Proof.
  revert elements last_pos w.
  induction links as [|[[link start] stop] links IH]; intros elements last_pos w.
  - destruct w as [u d m]. simpl. f_equal. lia.
  - cbn [parse_links]. unfold mbind, M_bind, generate_token_id, dict_get.
    rewrite IH. simpl. f_equal. lia.
Qed.

Lemma parse_line_draws (line : str) (w : world) :
  draws_only w (snd (parse_line line w)).
Proof.
  unfold parse_line.
  destruct (startswith (lit "* ") line).
  { repeat split; simpl; lia. }
  destruct (startswith (lit "- [ ] ") line || startswith (lit "- [x] ") line).
  { apply draws_only_refl. }
  unfold mbind, M_bind.
  pose proof (parse_links_world line (Re.finditer line) [] 0 w) as Hw.
  destruct (parse_links line (Re.finditer line) [] 0 w) as [[elements last_pos] w'].
  simpl in Hw. subst w'. repeat split; simpl; lia.
Qed.

Lemma convert_line_draws (paragraph : str) (tokens : list node) (w : world) :
  draws_only w (snd (convert_line paragraph tokens w)).
Proof.
  unfold convert_line. destruct (strip paragraph).
  - apply generate_token_id_draws.
  - unfold mbind, M_bind.
    pose proof (parse_line_draws paragraph (snd (generate_token_id w))) as Hw.
    simpl in Hw |- *.
    destruct (parse_line paragraph _) as [[item|elements] w']; simpl in Hw |- *;
      (eapply draws_only_trans; [apply generate_token_id_draws | exact Hw]).
Qed.

Lemma convert_lines_draws (paragraphs : list str) (tokens : list node) (w : world) :
  draws_only w (snd (convert_lines paragraphs tokens w)).
Proof.
  revert tokens w. induction paragraphs as [|paragraph rest IH]; intros tokens w.
  - apply draws_only_refl.
  - cbn [convert_lines]. unfold mbind, M_bind.
    pose proof (convert_line_draws paragraph tokens w) as Hw.
    destruct (convert_line paragraph tokens w) as [tokens' w'].
    eapply draws_only_trans; [exact Hw | apply IH].
Qed.

(** C9: [parse_line] and [convert_to_tokens] leave the dictionary as they
    found it, also when a link is not resolved and a placeholder identifier
    is drawn. *)
Theorem mapping_is_read_only (line content : str) (w : world) :
  mapping (snd (parse_line line w)) = mapping w
  /\ mapping (snd (convert_to_tokens content w)) = mapping w.
Proof.
  split.
  - apply parse_line_draws.
  - apply convert_lines_draws.
Qed.

(** *** [convert_to_tokens] *)

Lemma convert_line_token (paragraph : str) (tokens : list node) (w : world) :
  exists token,
    fst (convert_line paragraph tokens w) = tokens ++ [token]
    /\ line_token w paragraph token.
Proof.
  unfold convert_line, line_token. destruct (strip paragraph).
  - eexists. split; reflexivity.
  - unfold mbind, M_bind. simpl.
    destruct (parse_line paragraph _) as [[item|elements] w'];
      eexists; split; reflexivity.
Qed.

Lemma convert_lines_tokens (paragraphs : list str) (tokens : list node) (w : world) :
  exists added,
    fst (convert_lines paragraphs tokens w) = tokens ++ added
    /\ Forall2 (fun line token =>
                  exists w', draws_only w w' /\ line_token w' line token)
               paragraphs added.
Proof.
  revert tokens w. induction paragraphs as [|paragraph rest IH]; intros tokens w.
  - exists []. split; [by rewrite app_nil_r | constructor].
  - cbn [convert_lines]. unfold mbind, M_bind.
    destruct (convert_line_token paragraph tokens w) as (token & Htokens & Htoken).
    pose proof (convert_line_draws paragraph tokens w) as Hw.
    destruct (convert_line paragraph tokens w) as [tokens' w']. simpl in Htokens, Hw.
    destruct (IH tokens' w') as (added & Hadded & Hall).
    exists (token :: added). split.
    + rewrite Hadded, Htokens. by rewrite <- app_assoc.
    + constructor.
      * exists w. split; [apply draws_only_refl | exact Htoken].
      * eapply Forall2_impl; [exact Hall|].
        intros line tok (w'' & Hdraws & Htok). exists w''. split; [|exact Htok].
        eapply draws_only_trans; [exact Hw | exact Hdraws].
Qed.

Lemma convert_line_world (paragraph : str) (tokens : list node) (w : world) :
  snd (convert_line paragraph tokens w) = line_world w paragraph.
Proof.
  unfold convert_line, line_world. destruct (strip paragraph); [done|].
  unfold mbind, M_bind. cbn [generate_token_id snd].
  by destruct (parse_line paragraph _) as [[item|elements] w'].
Qed.

Lemma line_world_draws (w : world) (line : str) :
  draws_only w (line_world w line) /\ drawn w < drawn (line_world w line).
Proof.
  unfold line_world. destruct (strip line).
  - split; [apply generate_token_id_draws | cbn [generate_token_id snd drawn]; lia].
  - destruct (parse_line_draws line (snd (generate_token_id w))) as (Hu & Hd & Hm).
    cbn [generate_token_id snd uuid4 drawn mapping] in *.
    split; [split; [done | split; [lia | done]] | lia].
Qed.

Lemma worlds_of_draws (w : world) (lines : list str) (i : nat) (w' : world) :
  worlds_of w lines !! i = Some w' -> draws_only w w'.
Proof.
  revert w i. induction lines as [|line lines IH]; intros w i H; [done|].
  destruct i as [|i].
  - injection H as <-. apply draws_only_refl.
  - cbn in H. eapply draws_only_trans; [apply line_world_draws | eapply IH, H].
Qed.

Lemma worlds_of_later (w : world) (lines : list str) (i j : nat) (wi wj : world) :
  i < j ->
  worlds_of w lines !! i = Some wi -> worlds_of w lines !! j = Some wj ->
  drawn wi < drawn wj.
Proof.
  revert w i j. induction lines as [|line lines IH]; intros w i j Hij Hi Hj; [done|].
  destruct j as [|j]; [lia|]. cbn in Hj. destruct i as [|i].
  - injection Hi as <-. apply worlds_of_draws in Hj as (_ & Hd & _).
    destruct (line_world_draws w line) as [_ Hlt]. lia.
  - cbn in Hi. eapply IH; [|exact Hi|exact Hj]. lia.
Qed.

Lemma convert_lines_lookup (paragraphs : list str) (tokens : list node) (w : world)
    (i : nat) (line : str) :
  paragraphs !! i = Some line ->
  exists w' token,
    worlds_of w paragraphs !! i = Some w'
    /\ fst (convert_lines paragraphs tokens w) !! (length tokens + i) = Some token
    /\ line_token w' line token.
Proof.
  revert tokens w i. induction paragraphs as [|paragraph rest IH];
    intros tokens w i Hi; [done|].
  cbn [convert_lines worlds_of]. unfold mbind, M_bind.
  destruct (convert_line_token paragraph tokens w) as (token & Htokens & Htoken).
  pose proof (convert_line_world paragraph tokens w) as Hworld.
  destruct (convert_line paragraph tokens w) as [tokens' w']. cbn [fst snd] in *.
  subst tokens' w'. destruct i as [|i].
  - injection Hi as <-. exists w, token. split; [done|]. split; [|done].
    destruct (convert_lines_tokens rest (tokens ++ [token]) (line_world w paragraph))
      as (added & -> & _).
    rewrite Nat.add_0_r, <- app_assoc. by apply list_lookup_middle.
  - cbn in Hi. destruct (IH (tokens ++ [token]) (line_world w paragraph) i Hi)
      as (w' & token' & Hw' & Htoken' & Hline).
    exists w', token'. split; [done|]. split; [|done].
    rewrite length_app in Htoken'. cbn [length] in Htoken'.
    by replace (length tokens + S i) with (length tokens + 1 + i) by lia.
Qed.

(** C5: [convert_to_tokens] returns one token per line of the text split at
    the newlines, in the order of the lines: the [i]-th token is the token
    of the [i]-th line, converted in the world the lines before it leave.
    A line that is empty once stripped gives a paragraph with no content
    and the identifier drawn for that line, any other line the token of
    [parse_line]; every line draws, so the identifier of a line is a draw
    no earlier line has used; and there are as many tokens as lines. *)
Theorem convert_to_tokens_per_line (content : str) (w : world) :
  let lines := split_on (chr "010") content in
  let tokens := fst (convert_to_tokens content w) in
  let worlds := worlds_of w lines in
  length tokens = length lines
  /\ (forall i line, lines !! i = Some line ->
        exists w' token,
          worlds !! i = Some w' /\ tokens !! i = Some token
          /\ draws_only w w'
          /\ line_token w' line token
          /\ (strip line = [] ->
              token = Paragraph (fst (generate_token_id w')) []
              /\ fst (generate_token_id w') = token_id w (drawn w')))
  /\ (forall i j wi wj, i < j ->
        worlds !! i = Some wi -> worlds !! j = Some wj -> drawn wi < drawn wj)
  /\ Forall2 (fun line token =>
                exists w', draws_only w w' /\ line_token w' line token
                  /\ (strip line = [] ->
                      token = Paragraph (fst (generate_token_id w')) []))
             lines tokens.
Proof.
  intros lines tokens worlds. subst lines tokens worlds. unfold convert_to_tokens.
  split; [|split; [|split]].
  - destruct (convert_lines_tokens (split_on (chr "010") content) [] w)
      as (added & -> & Hall).
    symmetry. eapply Forall2_length, Hall.
  - intros i line Hi.
    destruct (convert_lines_lookup _ [] w i line Hi) as (w' & token & Hw' & Htoken & Hline).
    exists w', token. split; [done|]. split; [done|].
    pose proof (worlds_of_draws _ _ _ _ Hw') as Hdraws.
    split; [done|]. split; [done|].
    intros Hblank. unfold line_token in Hline. rewrite Hblank in Hline.
    split; [done|]. destruct Hdraws as (Hu & _ & _).
    unfold token_id. cbn. by rewrite Hu.
  - intros i j wi wj Hij Hi Hj. eapply worlds_of_later; [exact Hij | exact Hi | exact Hj].
  - destruct (convert_lines_tokens (split_on (chr "010") content) [] w)
      as (added & -> & Hall).
    eapply Forall2_impl; [exact Hall|].
    intros line token (w' & Hdraws & Htoken). exists w'.
    split; [done|]. split; [done|].
    intros Hblank. unfold line_token in Htoken. by rewrite Hblank in Htoken.
Qed.

(** Two blank lines get the identifiers of two draws. *)
Example convert_to_tokens_blank_lines :
  fst (convert_to_tokens [chr "010"] w0)
  = [Paragraph (lit "id0-0000") []; Paragraph (lit "id1-0000") []].
Proof. reflexivity. Qed.

(** *** The scan for links *)

Lemma has_pair_cons (a : ascii) (c : N) (s : str) :
  has_pair a (c :: s) = false -> has_pair a s = false.
Proof. cbn [has_pair]. intros H. by apply orb_false_elim in H as [_ H]. Qed.

Lemma match_link_plain (c : N) (plain s : str) :
  has_pair "[" ((c :: plain) ++ [chr "["]) = false ->
  Re.match_link ((c :: plain) ++ s) = None.
Proof.
  intros H. cbn [app has_pair] in H. apply orb_false_elim in H as [H _].
  unfold Re.match_link. destruct plain as [|d plain]; cbn [app] in *.
  - eval_chrs. rewrite andb_true_r in H. rewrite H. by destruct s.
  - by rewrite H.
Qed.

Lemma match_link_plain_step (c : N) (plain s : str) (pos : nat) :
  has_pair "[" ((c :: plain) ++ [chr "["]) = false ->
  Re.finditer_from pos 0 ((c :: plain) ++ s)
  = Re.finditer_from (S pos) 0 (plain ++ s).
Proof.
  intros H. pose proof (match_link_plain c plain s H) as Hnone.
  cbn [app] in *. cbn [Re.finditer_from]. by rewrite Hnone.
Qed.

Lemma finditer_plain (plain s : str) (pos : nat) :
  plain_span plain = true ->
  Re.finditer_from pos 0 (plain ++ s) = Re.finditer_from (pos + length plain) 0 s.
Proof.
  unfold plain_span. rewrite negb_true_iff.
  revert pos. induction plain as [|c plain IH]; intros pos H.
  - simpl. by rewrite Nat.add_0_r.
  - rewrite (match_link_plain_step c plain s pos H).
    rewrite IH by (eapply has_pair_cons; exact H).
    f_equal. simpl. lia.
Qed.

Lemma finditer_no_link (s : str) (pos : nat) :
  has_pair "[" s = false -> Re.finditer_from pos 0 s = [].
Proof.
  revert pos. induction s as [|c s IH]; intros pos H; [done|].
  cbn [Re.finditer_from].
  assert (Re.match_link (c :: s) = None) as ->.
  { cbn [has_pair] in H. apply orb_false_elim in H as [H _].
    unfold Re.match_link. destruct s as [|d s]; [done|]. by rewrite H. }
  apply IH. eapply has_pair_cons, H.
Qed.

Lemma close_at_title (title rest : str) (k : nat) :
  title_span title = true ->
  Re.close_at (title ++ lit "]]" ++ rest) k = Some (k + length title).
Proof.
  unfold title_span. intros H. apply andb_prop in H as [Hpair Hline].
  rewrite negb_true_iff in Hpair.
  revert k. induction title as [|c title IH]; intros k.
  - eval_lits. simpl. eval_chrs. simpl. f_equal. lia.
  - cbn [forallb] in Hline. apply andb_prop in Hline as [Hc Hline].
    rewrite negb_true_iff in Hc.
    pose proof (has_pair_cons _ _ _ Hpair) as Hrest.
    cbn [app has_pair] in Hpair. apply orb_false_elim in Hpair as [Hpair _].
    cbn [app Re.close_at].
    assert (is_chr "]" c
            && match title ++ lit "]]" ++ rest with
               | d :: _ => is_chr "]" d
               | [] => false
               end = false) as ->.
    { destruct title as [|d title]; cbn [app] in *; [|done].
      eval_chrs. rewrite andb_true_r in Hpair. by rewrite Hpair. }
    rewrite Hc. rewrite (IH Hrest Hline). f_equal. simpl. lia.
Qed.

Lemma finditer_skip (passed s : str) (pos : nat) :
  Re.finditer_from pos (length passed) (passed ++ s)
  = Re.finditer_from (pos + length passed) 0 s.
Proof.
  revert pos. induction passed as [|c passed IH]; intros pos.
  - simpl. by rewrite Nat.add_0_r.
  - cbn [app length Re.finditer_from]. rewrite IH. f_equal. lia.
Qed.

Lemma length_link_text (title : str) : length (link_text title) = length title + 4.
Proof. unfold link_text. rewrite !length_app. simpl. lia. Qed.

Lemma match_link_text (title s : str) :
  title_span title = true ->
  Re.match_link (link_text title ++ s) = Some (length title + 4).
Proof.
  intros H. unfold link_text. rewrite <- !app_assoc.
  change (lit "[[") with [chr "["; chr "["]. cbn [app Re.match_link].
  eval_chrs. cbn [andb]. rewrite (close_at_title _ _ 0 H). f_equal. lia.
Qed.

Lemma finditer_link (title s : str) (pos : nat) :
  title_span title = true ->
  Re.finditer_from pos 0 (link_text title ++ s)
  = (link_text title, pos, pos + (length title + 4))
    :: Re.finditer_from (pos + (length title + 4)) 0 s.
Proof.
  intros H. pose proof (match_link_text title s H) as Hmatch.
  pose proof (length_link_text title) as Hlen.
  destruct (link_text title) as [|c link] eqn:Hlink; [simpl in Hlen; lia|].
  cbn [app] in *. cbn [Re.finditer_from]. rewrite Hmatch.
  simpl in Hlen. f_equal.
  - f_equal. f_equal.
    change (c :: link ++ s) with ((c :: link) ++ s).
    rewrite take_app_length'; [done | simpl; lia].
  - replace (length title + 4 - 1) with (length link) by lia.
    rewrite finditer_skip. f_equal. lia.
Qed.

Lemma finditer_spans (spans : list (str * str)) (trailing : str) (pos : nat) :
  well_spanned spans trailing = true ->
  Re.finditer_from pos 0 (assemble spans trailing) = matches_at pos spans.
Proof.
  unfold well_spanned, assemble. intros H. apply andb_prop in H as [Hspans Htrailing].
  rewrite negb_true_iff in Htrailing.
  revert pos. induction spans as [|[plain title] spans IH]; intros pos.
  - simpl. by apply finditer_no_link.
  - cbn [forallb fst snd] in Hspans.
    apply andb_prop in Hspans as [Hspan Hspans].
    apply andb_prop in Hspan as [Hplain Htitle].
    cbn [links_text matches_at]. rewrite <- !app_assoc.
    rewrite (finditer_plain _ _ _ Hplain), (finditer_link _ _ _ Htitle).
    by rewrite (IH Hspans).
Qed.

(** *** [parse_line]: the last branch *)

Lemma slice_2_m2_link_text (title : str) : slice_2_m2 (link_text title) = title.
Proof.
  unfold slice_2_m2. rewrite length_link_text.
  unfold link_text. change (lit "[[") with [chr "["; chr "["]. cbn [app drop].
  replace (length title + 4 - 2 - 2) with (length title) by lia.
  rewrite drop_0. by rewrite take_app_length.
Qed.

Lemma span_elements_drawn (u : nat -> str) (m : gmap str str) (d d' n : nat)
    (spans : list (str * str)) :
  span_elements (World u d m) n spans = span_elements (World u d' m) n spans.
Proof.
  revert n. induction spans as [|[plain title] spans IH]; intros n; [done|].
  cbn [span_elements]. by rewrite IH.
Qed.

Lemma parse_links_spans (spans : list (str * str)) (passed trailing : str)
    (elements : list node) (u : nat -> str) (d : nat) (m : gmap str str) :
  parse_links (passed ++ assemble spans trailing)
              (matches_at (length passed) spans) elements (length passed)
              (World u d m)
  = ((elements ++ span_elements (World u d m) d spans,
      length passed + length (links_text spans)),
     World u (d + 2 * length spans) m).
Proof.
  revert passed elements d.
  induction spans as [|[plain title] spans IH]; intros passed elements d.
  - simpl. rewrite app_nil_r, !Nat.add_0_r. done.
  - cbn [matches_at parse_links].
    unfold mbind, M_bind, generate_token_id, dict_get. cbn [uuid4 drawn mapping].
    rewrite slice_2_m2_link_text.
    assert (Hline : passed ++ assemble ((plain, title) :: spans) trailing
                    = (passed ++ plain ++ link_text title) ++ assemble spans trailing).
    { unfold assemble. cbn [links_text]. by rewrite <- !app_assoc. }
    assert (Hstop : length passed + length plain + (length title + 4)
                    = length (passed ++ plain ++ link_text title)).
    { rewrite !length_app, length_link_text. lia. }
    assert (Hplain : (if length passed <? length passed + length plain
                      then elements
                           ++ parse_by_word
                                (slice (length passed) (length passed + length plain)
                                   (passed ++ assemble ((plain, title) :: spans) trailing))
                      else elements)
                     = elements ++ parse_by_word plain).
    { destruct (Nat.ltb_spec (length passed) (length passed + length plain)) as [Hlt|Hge].
      - unfold slice, assemble. cbn [links_text].
        rewrite drop_app_length. rewrite <- !app_assoc.
        replace (length passed + length plain - length passed) with (length plain) by lia.
        by rewrite take_app_length.
      - destruct plain; [|simpl in Hge; lia].
        by rewrite parse_by_word_nil, app_nil_r. }
    rewrite Hplain, Hline, Hstop, IH.
    f_equal.
    + f_equal.
      * cbn [span_elements]. rewrite <- !app_assoc.
        by rewrite (span_elements_drawn u m (S (S d)) d).
      * cbn [links_text]. rewrite !length_app. lia.
    + f_equal. simpl. lia.
Qed.

Lemma parse_line_spans (spans : list (str * str)) (trailing : str) (w : world) :
  well_spanned spans trailing = true ->
  default_line (assemble spans trailing) = true ->
  parse_line (assemble spans trailing) w
  = (AsParagraph (span_elements w (drawn w) spans ++ parse_by_word trailing),
     World (uuid4 w) (drawn w + 2 * length spans) (mapping w)).
Proof.
  intros Hspans Hdefault. unfold default_line in Hdefault.
  apply andb_prop in Hdefault as [Hdefault Hx].
  apply andb_prop in Hdefault as [Hbullet Hbox].
  rewrite negb_true_iff in Hbullet, Hbox, Hx.
  unfold parse_line. rewrite Hbullet, Hbox, Hx. cbn [orb].
  unfold Re.finditer. rewrite (finditer_spans _ _ _ Hspans).
  destruct w as [u d m]. unfold mbind, M_bind.
  pose proof (parse_links_spans spans [] trailing [] u d m) as Hlinks.
  cbn [app length] in Hlinks. rewrite Hlinks. cbn [Nat.add].
  unfold mret, M_ret. cbn [uuid4 drawn mapping]. f_equal. f_equal.
  destruct (Nat.ltb_spec (length (links_text spans)) (length (assemble spans trailing)))
    as [Hlt|Hge].
  - unfold slice_from, assemble. by rewrite drop_app_length.
  - unfold assemble in Hge. rewrite length_app in Hge.
    destruct trailing; [|simpl in Hge; lia].
    by rewrite parse_by_word_nil, app_nil_r.
Qed.

Lemma spaceships_span_elements (w : world) (n : nat) (spans : list (str * str)) :
  concat (map spaceships (span_elements w n spans)) = span_references w n spans.
Proof.
  revert n. induction spans as [|[plain title] spans IH]; intros n; [done|].
  cbn [span_elements span_references].
  rewrite !map_app, !concat_app, spaceships_parse_by_word, IH. done.
Qed.

Lemma length_span_references (w : world) (n : nat) (spans : list (str * str)) :
  length (span_references w n spans) = length spans.
Proof.
  revert n. induction spans as [|[plain title] spans IH]; intros n; [done|].
  simpl. by rewrite IH.
Qed.

(** C7: a line of the last branch made of [n] links, each after a plain
    span, and a trailing span is parsed link by link: the elements are, for
    each link in order, those of [parse_by_word] on the span before it and
    one cross-note reference, then those of [parse_by_word] on the trailing
    span; so there are exactly [n] references. *)
Theorem parse_line_links (spans : list (str * str)) (trailing : str) (w : world) :
  well_spanned spans trailing = true ->
  default_line (assemble spans trailing) = true ->
  fst (parse_line (assemble spans trailing) w)
  = AsParagraph (span_elements w (drawn w) spans ++ parse_by_word trailing)
  /\ length (spaceships_of (fst (parse_line (assemble spans trailing) w)))
     = length spans.
Proof.
  intros Hspans Hdefault. rewrite (parse_line_spans _ _ _ Hspans Hdefault).
  split; [done|]. cbn [fst spaceships_of].
  rewrite map_app, concat_app, spaceships_parse_by_word, app_nil_r.
  by rewrite spaceships_span_elements, length_span_references.
Qed.

(** *** Every match of the scan is a link, and gets its reference *)

Lemma close_at_sound (s : str) (k n : nat) :
  Re.close_at s k = Some n ->
  exists title rest, n = k + length title /\ s = title ++ lit "]]" ++ rest.
Proof.
  revert k. induction s as [|c s IH]; intros k H; [done|].
  cbn [Re.close_at] in H.
  destruct (is_chr "]" c && match s with d :: _ => is_chr "]" d | [] => false end)
    eqn:Hclose.
  - injection H as <-. apply andb_prop in Hclose as [Hc Hd].
    destruct s as [|d s]; [done|].
    apply N.eqb_eq in Hc as ->. apply N.eqb_eq in Hd as ->.
    exists [], s. split; [simpl; lia | reflexivity].
  - destruct (is_chr "010" c); [done|].
    destruct (IH _ H) as (title & rest & -> & ->).
    exists (c :: title), rest. split; [simpl; lia | reflexivity].
Qed.

Lemma match_link_sound (s : str) (n : nat) :
  Re.match_link s = Some n ->
  exists title rest, s = link_text title ++ rest /\ n = length title + 4.
Proof.
  unfold Re.match_link. destruct s as [|a [|b s]]; [done..|].
  destruct (is_chr "[" a && is_chr "[" b) eqn:Hopen; [|done].
  apply andb_prop in Hopen as [Ha Hb].
  apply N.eqb_eq in Ha as ->. apply N.eqb_eq in Hb as ->.
  destruct (Re.close_at s 0) as [k|] eqn:Hclose; [|done].
  intros [= <-]. destruct (close_at_sound _ _ _ Hclose) as (title & rest & -> & ->).
  exists title, rest. split.
  - unfold link_text. by rewrite <- !app_assoc.
  - lia.
Qed.

Lemma finditer_from_sound (passed s : str) (skip : nat) (link : str) (start stop : nat) :
  (link, start, stop) ∈ Re.finditer_from (length passed) skip s ->
  exists title,
    link = link_text title /\ slice start stop (passed ++ s) = link_text title.
Proof.
  revert passed skip. induction s as [|c s IH]; intros passed skip Hin.
  - by apply elem_of_nil in Hin.
  - assert (Hnext : forall skip',
              (link, start, stop) ∈ Re.finditer_from (S (length passed)) skip' s ->
              exists title,
                link = link_text title
                /\ slice start stop (passed ++ c :: s) = link_text title).
    { intros skip' Hin'.
      replace (S (length passed)) with (length (passed ++ [c])) in Hin'
        by (rewrite length_app; simpl; lia).
      destruct (IH _ _ Hin') as (title & Hlink & Hslice).
      exists title. split; [done|]. by rewrite <- app_assoc in Hslice. }
    cbn [Re.finditer_from] in Hin. destruct skip as [|skip]; [|by eapply Hnext].
    destruct (Re.match_link (c :: s)) as [n|] eqn:Hmatch; [|by eapply Hnext].
    apply elem_of_cons in Hin as [Hhere|Hlater]; [|by eapply Hnext].
    injection Hhere as -> -> ->.
    destruct (match_link_sound _ _ Hmatch) as (title & rest & Hs & ->).
    exists title. rewrite Hs, <- length_link_text. unfold slice. split.
    + by rewrite take_app_length.
    + rewrite drop_app_length.
      replace (length passed + length (link_text title) - length passed)
        with (length (link_text title)) by lia.
      by rewrite take_app_length.
Qed.

Lemma link_references_drawn (u : nat -> str) (m : gmap str str) (d d' n : nat)
    (links : list (str * nat * nat)) :
  link_references (World u d m) n links = link_references (World u d' m) n links.
Proof.
  revert n. induction links as [|[[link start] stop] links IH]; intros n; [done|].
  cbn [link_references]. by rewrite IH.
Qed.

Lemma parse_links_references (line : str) (links : list (str * nat * nat))
    (elements : list node) (last_pos : nat) (u : nat -> str) (d : nat)
    (m : gmap str str) :
  concat (map spaceships
            (fst (fst (parse_links line links elements last_pos (World u d m)))))
  = concat (map spaceships elements) ++ link_references (World u d m) d links.
Proof.
  revert elements last_pos d.
  induction links as [|[[link start] stop] links IH]; intros elements last_pos d.
  - simpl. by rewrite app_nil_r.
  - cbn [parse_links]. unfold mbind, M_bind, generate_token_id, dict_get.
    cbn [uuid4 drawn mapping]. rewrite IH.
    rewrite map_app, concat_app. cbn [map concat spaceships app].
    rewrite <- app_assoc. cbn [link_references app].
    rewrite (link_references_drawn u m (S (S d)) d).
    destruct (last_pos <? start); [|done].
    by rewrite map_app, concat_app, spaceships_parse_by_word, app_nil_r.
Qed.

Lemma parse_line_references (line : str) (w : world) :
  default_line line = true ->
  spaceships_of (fst (parse_line line w))
  = link_references w (drawn w) (Re.finditer line).
Proof.
  intros Hdefault. unfold default_line in Hdefault.
  apply andb_prop in Hdefault as [Hdefault Hx].
  apply andb_prop in Hdefault as [Hbullet Hbox].
  rewrite negb_true_iff in Hbullet, Hbox, Hx.
  unfold parse_line. rewrite Hbullet, Hbox, Hx. cbn [orb].
  destruct w as [u d m]. unfold mbind, M_bind.
  pose proof (parse_links_references line (Re.finditer line) [] 0 u d m) as Hrefs.
  destruct (parse_links line (Re.finditer line) [] 0 (World u d m))
    as [[elements last_pos] w'].
  cbn [fst] in Hrefs. cbn [mret M_ret fst spaceships_of drawn].
  unfold mret, M_ret. cbn [fst spaceships_of].
  destruct (last_pos <? length line); [|done].
  by rewrite map_app, concat_app, spaceships_parse_by_word, app_nil_r.
Qed.

Lemma lookup_link_references (w : world) (n i : nat) (links : list (str * nat * nat))
    (link : str) (start stop : nat) :
  links !! i = Some (link, start, stop) ->
  link_references w n links !! i
  = Some (Spaceship (link_target w (slice_2_m2 link) (n + 2 * i))
                    (token_id w (S (n + 2 * i)))).
Proof.
  revert n i. induction links as [|[[link' start'] stop'] links IH]; intros n i H;
    [done|].
  destruct i as [|i].
  - simpl in H. injection H as -> -> ->. simpl. by rewrite Nat.add_0_r.
  - simpl in H. cbn [link_references]. simpl lookup. rewrite (IH _ _ H).
    do 3 f_equal; lia.
Qed.

(** C4: in a line of the last branch, the [i]-th match of the scan is the
    text of a link [[[title]]] of the line, and the [i]-th reference
    emitted has the identifier the mapping gives for [title] as target;
    when [title] is not a key of the mapping, [parse_line] still returns,
    the target is the identifier drawn for that link, and [title] stays
    out of the mapping. *)
Theorem parse_line_link_target (line : str) (w : world) (i : nat)
    (link : str) (start stop : nat) :
  default_line line = true ->
  Re.finditer line !! i = Some (link, start, stop) ->
  exists title target token,
    link = link_text title
    /\ slice start stop line = link_text title
    /\ spaceships_of (fst (parse_line line w)) !! i = Some (Spaceship target token)
    /\ (forall note_id, mapping w !! title = Some note_id -> target = note_id)
    /\ (mapping w !! title = None ->
        target = token_id w (drawn w + 2 * i)
        /\ mapping (snd (parse_line line w)) !! title = None).
Proof.
  intros Hdefault Hi.
  destruct (finditer_from_sound [] line 0 link start stop) as (title & Hlink & Hslice).
  { eapply list_elem_of_lookup_2, Hi. }
  exists title. eexists _, _. split; [done|]. split; [done|].
  rewrite (parse_line_references _ _ Hdefault), (lookup_link_references _ _ _ _ _ _ _ Hi).
  rewrite Hlink, slice_2_m2_link_text. split; [done|].
  unfold link_target. split.
  - by intros note_id ->.
  - intros Hnone. rewrite Hnone. split; [done|].
    destruct (parse_line_draws line w) as (_ & _ & ->). exact Hnone.
Qed.

(** The line of the end-to-end example of the specification. *)
Example parse_line_hello :
  fst (parse_line (lit "Hello [[Note B]] #tag http://x.com")
                  (World uuids 0 {[ lit "Note B" := lit "0a1b2c3d" ]}))
  = AsParagraph [Text [] (lit "Hello");
                 Spaceship (lit "0a1b2c3d") (lit "id1-0000");
                 Hashtag (lit "#tag");
                 Text [] (lit " ");
                 Link (lit "http://x.com") (lit "http://x.com")].
Proof. reflexivity. Qed.

Lemma parse_line_links_witness :
  fst (parse_line (lit "[[A]] x [[B]]") (World uuids 0 {[ lit "A" := lit "0a1b2c3d" ]}))
  = AsParagraph [Spaceship (lit "0a1b2c3d") (lit "id1-0000");
                 Text [] (lit "x");
                 Spaceship (lit "id2-0000") (lit "id3-0000")]
  /\ length (spaceships_of
               (fst (parse_line (lit "[[A]] x [[B]]")
                                (World uuids 0 {[ lit "A" := lit "0a1b2c3d" ]}))))
     = 2.
Proof.
  exact (parse_line_links [(lit "", lit "A"); (lit " x ", lit "B")] (lit "")
           (World uuids 0 {[ lit "A" := lit "0a1b2c3d" ]}) eq_refl eq_refl).
Defined.

Lemma parse_line_link_target_witness :
  exists title target token,
    lit "[[A]]" = link_text title
    /\ slice 4 9 (lit "see [[A]] and [[B]] too") = link_text title
    /\ spaceships_of
      (fst (parse_line (lit "see [[A]] and [[B]] too")
                       (World uuids 0 {[ lit "A" := lit "0a1b2c3d" ]}))) !! 0
    = Some (Spaceship target token)
    /\ (forall note_id,
          ({[ lit "A" := lit "0a1b2c3d" ]} : gmap str str) !! title = Some note_id ->
          target = note_id)
    /\ (({[ lit "A" := lit "0a1b2c3d" ]} : gmap str str) !! title = None ->
        target = token_id (World uuids 0 {[ lit "A" := lit "0a1b2c3d" ]}) (0 + 2 * 0)
        /\ mapping (snd (parse_line (lit "see [[A]] and [[B]] too")
                                    (World uuids 0 {[ lit "A" := lit "0a1b2c3d" ]})))
           !! title = None).
Proof.
  exact (parse_line_link_target (lit "see [[A]] and [[B]] too")
           (World uuids 0 {[ lit "A" := lit "0a1b2c3d" ]}) 0 (lit "[[A]]") 4 9
           eq_refl eq_refl).
Defined.

(** *** Indented bullets *)

Lemma lstrip_bullet (line : str) :
  startswith (lit "* ") line = true -> lstrip line = line.
Proof. intros H. apply startswith_inv in H as [rest ->]. reflexivity. Qed.

(** The depth of a list item is always 0: the line starts with the
    asterisk, so [lstrip] removes nothing. *)
Lemma parse_line_bullet_depth (line : str) (w : world) :
  startswith (lit "* ") line = true ->
  fst (parse_line line w)
  = AsList (ListNode [ListItem [Paragraph (token_id w (drawn w))
                                          (parse_by_word (slice_from 2 line))] 0]).
Proof.
  intros H. rewrite (parse_line_bullet _ _ H), (lstrip_bullet _ H).
  by rewrite Z.sub_diag.
Qed.

Lemma content_type_paragraph (line : str) (w : world) :
  startswith (lit "* ") line = false ->
  content_type (fst (parse_line line w)) = "paragraph"%string.
Proof.
  intros H. unfold parse_line. rewrite H.
  destruct (startswith (lit "- [ ] ") line || startswith (lit "- [x] ") line); [done|].
  unfold mbind, M_bind.
  by destruct (parse_links line (Re.finditer line) [] 0 w) as [[elements last_pos] w'].
Qed.

(** A bullet after at least one space of indentation is not taken for a
    list item. *)
Lemma indented_bullet_paragraph (k : nat) (rest : str) (w : world) :
  0 < k ->
  content_type (fst (parse_line (replicate (4 * k) (chr " ") ++ lit "* " ++ rest) w))
  = "paragraph"%string.
Proof.
  intros Hk. apply content_type_paragraph.
  destruct k as [|k]; [lia|].
  replace (4 * S k) with (S (3 + 4 * k)) by lia. reflexivity.
Qed.

(** C1 fails on the code: a bullet indented by four spaces does not start
    with ["* "], so [parse_line] takes the line for a plain one and returns
    its words as a paragraph; no list item of depth 1 is built. *)
Theorem indented_bullet_is_parsed_as_paragraph (w : world) :
  parse_line (lit "    * item") w
  = (AsParagraph [Text [] (lit "*"); Text [] (lit " "); Text [] (lit "item")], w)
  /\ content_type (fst (parse_line (lit "    * item") w)) = "paragraph"%string.
Proof. split; reflexivity. Qed.

(** *** The link mapping *)

(** What holds of the titles and of the entries. *)

Lemma replace_hash (s : str) : replace (lit "#") [] s = without "#" s.
Proof.
  unfold replace. change (lit "#") with [chr "#"].
  induction s as [|c s IH]; [done|].
  cbn [replace_from without startswith length Nat.sub app]. rewrite andb_true_r, IH.
  unfold is_chr. rewrite (N.eqb_sym (chr "#") c). by destruct (c =? chr "#")%N.
Qed.

Lemma replace_extension (stem : str) :
  forallb (fun c => negb (is_chr "." c)) stem = true ->
  replace (lit ".md") [] (stem ++ lit ".md") = stem.
Proof.
  unfold replace. induction stem as [|c stem IH]; intros H; [done|].
  cbn [forallb] in H. apply andb_prop in H as [Hc H].
  rewrite negb_true_iff in Hc. unfold is_chr in Hc.
  cbn [app replace_from]. change (lit ".md") with (chr "." :: lit "md") at 1.
  cbn [startswith]. rewrite (N.eqb_sym (chr ".") c), Hc. cbn [andb].
  by rewrite (IH H).
Qed.

(** A file name with no dot but that of the extension is entered under
    its name without the extension and without the hash signs. *)
Lemma title_of_plain_name (stem : str) :
  forallb (fun c => negb (is_chr "." c)) stem = true ->
  title_of (stem ++ lit ".md") = without "#" stem.
Proof.
  intros H. unfold title_of. by rewrite (replace_extension _ H), replace_hash.
Qed.

Lemma mapping_files_app (earlier later : list str) (w : world) :
  snd (mapping_files (earlier ++ later) w)
  = snd (mapping_files later (snd (mapping_files earlier w))).
Proof.
  revert w. induction earlier as [|filename earlier IH]; intros w; [done|].
  cbn [app mapping_files]. unfold mbind, M_bind.
  destruct (endswith (lit ".md") filename).
  - destruct (generate_token_id w) as [token w1].
    destruct (dict_set (title_of filename) token w1) as [[] w2]. apply IH.
  - unfold mret, M_ret. apply IH.
Qed.

Lemma mapping_walk_files (walk : list (str * list str)) (w : world) :
  snd (mapping_walk walk w) = snd (mapping_files (walked_files walk) w).
Proof.
  revert w. induction walk as [|[root files] walk IH]; intros w; [done|].
  cbn [mapping_walk]. unfold walked_files. cbn [map concat snd].
  rewrite mapping_files_app. unfold mbind, M_bind.
  destruct (mapping_files files w) as [[] w1]. apply IH.
Qed.

Lemma mapping_files_other (files : list str) (w : world) (title : str) :
  (forall filename, filename ∈ files -> endswith (lit ".md") filename = true ->
                    title_of filename <> title) ->
  mapping (snd (mapping_files files w)) !! title = mapping w !! title.
Proof.
  revert w. induction files as [|filename files IH]; intros w Hother; [done|].
  cbn [mapping_files]. unfold mbind, M_bind.
  assert (Hrest : forall f, f ∈ files -> endswith (lit ".md") f = true ->
                            title_of f <> title).
  { intros f Hf. apply Hother. by apply elem_of_cons; right. }
  destruct (endswith (lit ".md") filename) eqn:Hmd.
  - unfold generate_token_id, dict_set. cbn [fst snd uuid4 drawn mapping].
    rewrite (IH _ Hrest). cbn [mapping].
    apply lookup_insert_ne, Hother; [apply elem_of_cons; by left | done].
  - unfold mret, M_ret. by rewrite (IH _ Hrest).
Qed.

Lemma mapping_files_keeps (files : list str) (w : world) (title : str) :
  is_Some (mapping w !! title) ->
  is_Some (mapping (snd (mapping_files files w)) !! title).
Proof.
  revert w. induction files as [|filename files IH]; intros w Hsome; [done|].
  cbn [mapping_files]. unfold mbind, M_bind.
  destruct (endswith (lit ".md") filename).
  - unfold generate_token_id, dict_set. cbn [fst snd uuid4 drawn mapping].
    apply IH. cbn [mapping]. rewrite lookup_insert. by case_decide.
  - unfold mret, M_ret. by apply IH.
Qed.

(** Every file that ends in [".md"] has an entry, under its title. *)
Lemma mapping_files_every_file (files : list str) (w : world) (filename : str) :
  filename ∈ files ->
  endswith (lit ".md") filename = true ->
  is_Some (mapping (snd (mapping_files files w)) !! title_of filename).
Proof.
  revert w. induction files as [|f files IH]; intros w Hin Hmd.
  - by apply elem_of_nil in Hin.
  - apply elem_of_cons in Hin as [<-|Hin].
    + cbn [mapping_files]. unfold mbind, M_bind. rewrite Hmd.
      unfold generate_token_id, dict_set. cbn [fst snd uuid4 drawn mapping].
      apply mapping_files_keeps. cbn [mapping]. by rewrite lookup_insert_eq.
    + cbn [mapping_files]. unfold mbind, M_bind.
      destruct (endswith (lit ".md") f).
      * unfold generate_token_id, dict_set. cbn [fst snd uuid4 drawn mapping].
        by apply IH.
      * unfold mret, M_ret. by apply IH.
Qed.

(** Of the files with one title the last enumerated gives the entry: the
    identifier drawn when its turn came. *)
Lemma mapping_files_last_wins (earlier later : list str) (filename : str) (w : world) :
  endswith (lit ".md") filename = true ->
  (forall f, f ∈ later -> endswith (lit ".md") f = true ->
             title_of f <> title_of filename) ->
  mapping (snd (mapping_files (earlier ++ filename :: later) w)) !! title_of filename
  = Some (fst (generate_token_id (snd (mapping_files earlier w)))).
Proof.
  intros Hmd Hlater. rewrite mapping_files_app.
  cbn [mapping_files]. unfold mbind, M_bind. rewrite Hmd.
  unfold generate_token_id at 1, dict_set. cbn [fst snd uuid4 drawn mapping].
  rewrite (mapping_files_other _ _ _ Hlater). cbn [mapping].
  by rewrite lookup_insert_eq.
Qed.

(** C2 fails on the code: [replace] removes every [".md"] of the file
    name, not the extension alone, so the file [a.mdx.md] is entered under
    the title [ax] and not under [a.mdx]. *)
Theorem inner_extension_is_removed_too (w : world) :
  let notes :=
    fst (obsidian_to_ideaflow_link_mapping [(lit "vault", [lit "a.mdx.md"])] w) in
  title_of (lit "a.mdx.md") = lit "ax"
  /\ notes !! lit "ax" = Some (token_id w (drawn w))
  /\ notes !! lit "a.mdx" = None.
Proof.
  split; [reflexivity|].
  simpl. unfold dict_read, mbind, M_bind, mret, M_ret. simpl.
  change (title_of (lit "a.mdx.md")) with (lit "ax").
  split.
  - by rewrite lookup_insert_eq.
  - rewrite lookup_insert_ne; [apply lookup_empty|]. by vm_compute.
Qed.

(** ** Further properties of the word-level parser *)

Lemma length_spaced (words : list str) :
  length (spaced words) = 2 * length words - 1.
Proof.
  induction words as [|word rest IH]; [done|].
  cbn [spaced]. destruct rest as [|word' rest]; [done|].
  cbn [length] in *. lia.
Qed.

(** For [n] words the parser returns [n] word elements and the [n - 1]
    spaces between them, and nothing for no word. *)
Theorem parse_by_word_length (line : str) :
  length (parse_by_word line) = 2 * length (split line) - 1.
Proof. rewrite parse_by_word_spaced. apply length_spaced. Qed.

Lemma rstrip_nil (s : str) : rstrip s = [] <-> forallb isspace s = true.
Proof.
  induction s as [|c s IH]; [done|].
  cbn [rstrip forallb]. destruct (rstrip s) as [|d kept].
  - destruct (isspace c); [|done]. cbn [andb]. by rewrite <- IH.
  - split; [done|]. intros H. apply andb_prop in H as [_ H].
    by apply IH in H.
Qed.

Lemma forallb_isspace_lstrip (s : str) :
  forallb isspace (lstrip s) = forallb isspace s.
Proof.
  induction s as [|c s IH]; [done|].
  cbn [lstrip]. destruct (isspace c) eqn:Hc; [|done].
  cbn [forallb]. by rewrite Hc, IH.
Qed.

Lemma strip_nil_split (line : str) : strip line = [] <-> split line = [].
Proof.
  unfold strip, split. rewrite split_nil_rstrip, !rstrip_nil.
  by rewrite forallb_isspace_lstrip.
Qed.

(** The lines that give no element are those [convert_to_tokens] takes for
    blank: the ones that are empty once stripped. *)
Theorem parse_by_word_blank (line : str) :
  parse_by_word line = [] <-> strip line = [].
Proof.
  rewrite parse_by_word_spaced, strip_nil_split.
  by destruct (split line) as [|word rest].
Qed.

(** Whatever kinds the words have, the contents of the elements,
    concatenated in order, are the stripped line with every run of
    whitespace replaced by one space. *)
Theorem parse_by_word_keeps_text (line : str) :
  concat_contents (parse_by_word line) = Some (collapse_runs (strip line)).
Proof.
  rewrite parse_by_word_spaced, concat_contents_spaced.
  f_equal. apply join_split_collapse.
Qed.

Lemma split_from_word_app (word tail rest : str) :
  forallb (fun c => negb (isspace c)) tail = true ->
  split_from word (tail ++ rest) = split_from (word ++ tail) rest.
Proof.
  revert word. induction tail as [|c tail IH]; intros word H.
  - by rewrite app_nil_r.
  - cbn [forallb] in H. apply andb_prop in H as [Hc H].
    rewrite negb_true_iff in Hc. cbn [app split_from]. rewrite Hc.
    rewrite (IH _ H). by rewrite <- app_assoc.
Qed.

Lemma split_from_words (word s : str) :
  forallb (fun c => negb (isspace c)) word = true ->
  Forall (fun w => w <> [] /\ forallb (fun c => negb (isspace c)) w = true)
         (split_from word s).
Proof.
  revert word. induction s as [|c s IH]; intros word Hword.
  - destruct word; [constructor|]. by repeat constructor.
  - cbn [split_from]. destruct (isspace c) eqn:Hc.
    + destruct word as [|a word]; [by apply IH|].
      constructor; [done | by apply IH].
    + apply IH. rewrite forallb_app, Hword. cbn [forallb]. by rewrite Hc.
Qed.

Lemma split_join_words (words : list str) :
  Forall (fun w => w <> [] /\ forallb (fun c => negb (isspace c)) w = true) words ->
  split (join_words words) = words.
Proof.
  unfold split. induction 1 as [|word rest [Hne Hword] Hrest IH]; [done|].
  cbn [join_words]. rewrite (split_from_word_app [] _ _ Hword). cbn [app].
  destruct rest as [|word' rest].
  - cbn [split_from]. by destruct word.
  - cbn [split_from]. change (isspace (chr " ")) with true. cbn match.
    rewrite IH. by destruct word.
Qed.

(** The parser is insensitive to the whitespace it drops: the stripped and
    collapsed line is parsed to the same elements as the line. *)
Theorem parse_by_word_normalised (line : str) :
  parse_by_word (collapse_runs (strip line)) = parse_by_word line.
Proof.
  rewrite <- join_split_collapse, !parse_by_word_spaced.
  f_equal. apply split_join_words, split_from_words. done.
Qed.

Lemma strip_prefix_app (p s rest tail : str) :
  strip_prefix p s = Some rest -> strip_prefix p (s ++ tail) = Some (rest ++ tail).
Proof.
  revert s. induction p as [|a p IH]; intros s H.
  - simpl in *. by injection H as ->.
  - destruct s as [|b s]; [done|]. cbn [strip_prefix app] in *.
    destruct (a =? b)%N; [by apply IH | done].
Qed.

Lemma url_group_app (s tail : str) :
  Re.url_group s = true -> Re.url_group (s ++ tail) = true.
Proof.
  unfold Re.url_group. destruct s as [|c s]; [done|]. cbn [app].
  destruct (Re.url_class c); [done|]. cbn [orb].
  unfold Re.url_escape. by destruct s as [|h1 [|h2 s]].
Qed.

Lemma url_tail_app (s tail : str) :
  Re.url_tail s = true -> Re.url_tail (s ++ tail) = true.
Proof.
  unfold Re.url_tail. destruct (strip_prefix (lit "://") s) as [rest|] eqn:Hs; [|done].
  rewrite (strip_prefix_app _ _ _ tail Hs). apply url_group_app.
Qed.

Lemma match_url_app (word tail : str) :
  Re.match_url word = true -> Re.match_url (word ++ tail) = true.
Proof.
  unfold Re.match_url.
  destruct (strip_prefix (lit "http") word) as [rest|] eqn:Hs; [|done].
  rewrite (strip_prefix_app _ _ _ tail Hs).
  destruct rest as [|c rest]; [done|]. cbn [app]. intros H.
  apply orb_prop in H as [H|H].
  - apply andb_prop in H as [Hc H]. rewrite Hc, (url_tail_app _ tail H). done.
  - pose proof (url_tail_app (c :: rest) tail H) as H'. cbn [app] in H'.
    rewrite H'. apply orb_true_r.
Qed.

(** The URL pattern is matched at the start of a word only, so a word that
    starts as a URL is a link whatever follows in it. *)
Theorem word_element_url_prefix (word tail : str) :
  Re.match_url word = true ->
  word_element (word ++ tail) = Link (word ++ tail) (word ++ tail).
Proof.
  intros H. unfold word_element. by rewrite (match_url_app _ tail H).
Qed.

Lemma word_element_url_prefix_witness :
  word_element (lit "http://x.com" ++ lit "[[A]]")
  = Link (lit "http://x.com" ++ lit "[[A]]") (lit "http://x.com" ++ lit "[[A]]").
Proof.
  apply (word_element_url_prefix (lit "http://x.com") (lit "[[A]]")). reflexivity.
Defined.

(** ** Further properties of the line parser *)

Lemma has_pair_app_l (a : ascii) (s tail : str) :
  has_pair a s = true -> has_pair a (s ++ tail) = true.
Proof.
  induction s as [|c s IH]; [done|].
  cbn [app has_pair]. intros H. apply orb_prop in H as [H|H].
  - destruct s as [|d s]; [by rewrite andb_false_r in H|].
    cbn [app]. by rewrite H.
  - rewrite (IH H). apply orb_true_r.
Qed.

Lemma has_pair_app_r (a : ascii) (s tail : str) :
  has_pair a tail = true -> has_pair a (s ++ tail) = true.
Proof.
  intros H. induction s as [|c s IH]; [done|].
  cbn [app has_pair]. rewrite IH. apply orb_true_r.
Qed.

Lemma has_pair_link_text (title : str) :
  has_pair "[" (link_text title) = true /\ has_pair "]" (link_text title) = true.
Proof.
  unfold link_text. split.
  - by apply has_pair_app_l.
  - by apply has_pair_app_r, has_pair_app_r.
Qed.

Lemma slice_inside (start stop : nat) (line piece : str) :
  slice start stop line = piece ->
  exists before after, line = before ++ piece ++ after.
Proof.
  unfold slice. intros <-.
  exists (take start line), (drop (stop - start) (drop start line)).
  by rewrite take_drop, take_drop.
Qed.

Lemma finditer_no_brackets (line : str) :
  has_pair "[" line = false \/ has_pair "]" line = false ->
  Re.finditer line = [].
Proof.
  intros H. unfold Re.finditer.
  destruct (Re.finditer_from 0 0 line) as [|[[link start] stop] links] eqn:Hfind; [done|].
  destruct (finditer_from_sound [] line 0 link start stop) as (title & _ & Hslice).
  { cbn [length]. rewrite Hfind. apply elem_of_cons. by left. }
  cbn [app] in Hslice. apply slice_inside in Hslice as (before & after & ->).
  destruct (has_pair_link_text title) as [Hopen Hclose].
  destruct H as [H|H].
  - by rewrite (has_pair_app_r _ _ _ (has_pair_app_l _ _ after Hopen)) in H.
  - by rewrite (has_pair_app_r _ _ _ (has_pair_app_l _ _ after Hclose)) in H.
Qed.

Lemma default_line_tests (line : str) :
  default_line line = true ->
  startswith (lit "* ") line = false
  /\ startswith (lit "- [ ] ") line || startswith (lit "- [x] ") line = false.
Proof.
  unfold default_line. intros H.
  apply andb_prop in H as [H Hx]. apply andb_prop in H as [Hbullet Hbox].
  rewrite negb_true_iff in Hbullet, Hbox, Hx. by rewrite Hbullet, Hbox, Hx.
Qed.

(** A plain line in which no two opening brackets or no two closing
    brackets stand in a row has no link: it is parsed word by word, and
    nothing is drawn or changed. *)
Theorem parse_line_without_link (line : str) (w : world) :
  default_line line = true ->
  has_pair "[" line = false \/ has_pair "]" line = false ->
  parse_line line w = (AsParagraph (parse_by_word line), w).
Proof.
  intros Hdefault Hpair. destruct (default_line_tests _ Hdefault) as [Hbullet Hbox].
  unfold parse_line. rewrite Hbullet, Hbox, (finditer_no_brackets _ Hpair).
  cbn [parse_links]. unfold mbind, M_bind, mret, M_ret.
  destruct line as [|c line]; [done|]. reflexivity.
Qed.

Lemma parse_line_without_link_witness :
  parse_line (lit "a [[b] c") w0 = (AsParagraph (parse_by_word (lit "a [[b] c")), w0).
Proof.
  apply (parse_line_without_link (lit "a [[b] c") w0); [reflexivity|].
  right. reflexivity.
Defined.

Lemma parse_line_as_list (line : str) (w : world) (item : node) :
  fst (parse_line line w) = AsList item ->
  startswith (lit "* ") line = true
  /\ item = ListNode [ListItem [Paragraph (token_id w (drawn w))
                                          (parse_by_word (slice_from 2 line))] 0].
Proof.
  destruct (startswith (lit "* ") line) eqn:Hbullet.
  - rewrite (parse_line_bullet_depth _ _ Hbullet). by intros [= <-].
  - pose proof (content_type_paragraph line w Hbullet) as Hkind.
    by intros Hitem; rewrite Hitem in Hkind.
Qed.

(** Only a line that starts with ["* "] gives a list, and the list has one
    item with one paragraph, the words of the line after its first two code
    points; the depth of the item is 0 whatever the line. *)
Theorem parse_line_list_item (line : str) (w : world) (item : node) :
  fst (parse_line line w) = AsList item ->
  startswith (lit "* ") line = true
  /\ item = ListNode [ListItem [Paragraph (token_id w (drawn w))
                                          (parse_by_word (slice_from 2 line))] 0].
Proof. apply parse_line_as_list. Qed.

Lemma parse_line_list_item_witness :
  startswith (lit "* ") (lit "* milk  eggs") = true
  /\ ListNode [ListItem [Paragraph (lit "id0-0000")
                                   [Text [] (lit "milk"); Text [] (lit " ");
                                    Text [] (lit "eggs")]] 0]
     = ListNode [ListItem [Paragraph (token_id w0 (drawn w0))
                                     (parse_by_word (slice_from 2 (lit "* milk  eggs")))] 0].
Proof.
  apply (parse_line_list_item (lit "* milk  eggs") w0). reflexivity.
Defined.

(** [parse_line] draws one identifier for a list item, none for a checkbox
    line, and two for every link of a plain line: the placeholder, drawn
    before the mapping is asked, and the identifier of the reference. *)
Theorem parse_line_draw_count (line : str) (w : world) :
  drawn (snd (parse_line line w))
  = drawn w
    + (if startswith (lit "* ") line then 1
       else if startswith (lit "- [ ] ") line || startswith (lit "- [x] ") line then 0
       else 2 * length (Re.finditer line)).
Proof.
  unfold parse_line. destruct (startswith (lit "* ") line).
  { simpl. lia. }
  destruct (startswith (lit "- [ ] ") line || startswith (lit "- [x] ") line).
  { simpl. lia. }
  unfold mbind, M_bind.
  pose proof (parse_links_world line (Re.finditer line) [] 0 w) as Hw.
  destruct (parse_links line (Re.finditer line) [] 0 w) as [[elements last_pos] w'].
  simpl in Hw. by subst w'.
Qed.

(** ** Further properties of the tokenizer *)

Lemma convert_lines_length (paragraphs : list str) (tokens : list node) (w : world) :
  length (fst (convert_lines paragraphs tokens w)) = length tokens + length paragraphs.
Proof.
  destruct (convert_lines_tokens paragraphs tokens w) as (added & -> & Hall).
  rewrite length_app. f_equal. symmetry. eapply Forall2_length, Hall.
Qed.

(** A text with [k] newlines gives [k + 1] tokens: the empty text one
    empty paragraph, and a newline at the end one more empty paragraph. *)
Theorem convert_to_tokens_length (content : str) (w : world) :
  length (fst (convert_to_tokens content w))
  = S (length (List.filter (fun c => (c =? chr "010")%N) content)).
Proof.
  unfold convert_to_tokens. rewrite convert_lines_length, length_split_on. done.
Qed.

Lemma split_on_from_app (sep : N) (piece before after : str) :
  split_on_from sep piece (before ++ sep :: after)
  = split_on_from sep piece before ++ split_on_from sep [] after.
Proof.
  revert piece. induction before as [|c before IH]; intros piece.
  - cbn [app split_on_from]. by rewrite N.eqb_refl.
  - cbn [app split_on_from]. destruct (c =? sep)%N; by rewrite IH.
Qed.

Lemma convert_lines_app (first second : list str) (tokens : list node) (w : world) :
  convert_lines (first ++ second) tokens w
  = convert_lines second (fst (convert_lines first tokens w))
                  (snd (convert_lines first tokens w)).
Proof.
  revert tokens w. induction first as [|paragraph first IH]; intros tokens w; [done|].
  cbn [app convert_lines]. unfold mbind, M_bind.
  destruct (convert_line paragraph tokens w) as [tokens' w']. apply IH.
Qed.

Lemma convert_line_tokens_app (paragraph : str) (tokens : list node) (w : world) :
  convert_line paragraph tokens w
  = (tokens ++ fst (convert_line paragraph [] w), snd (convert_line paragraph [] w)).
Proof.
  unfold convert_line. destruct (strip paragraph); [done|].
  unfold mbind, M_bind, generate_token_id.
  by destruct (parse_line paragraph _) as [[item|elements] w'].
Qed.

Lemma convert_lines_tokens_app (paragraphs : list str) (tokens : list node) (w : world) :
  convert_lines paragraphs tokens w
  = (tokens ++ fst (convert_lines paragraphs [] w), snd (convert_lines paragraphs [] w)).
Proof.
  revert tokens w. induction paragraphs as [|paragraph rest IH]; intros tokens w.
  - simpl. by rewrite app_nil_r.
  - cbn [convert_lines]. unfold mbind, M_bind.
    rewrite (convert_line_tokens_app paragraph tokens w).
    destruct (convert_line paragraph [] w) as [tokens' w']. cbn [fst snd].
    rewrite (IH (tokens ++ tokens')), (IH tokens'). cbn [fst snd].
    by rewrite app_assoc.
Qed.

(** The tokens of two texts joined by a newline are the tokens of the
    first followed by the tokens of the second, converted in the world the
    first leaves. *)
Theorem convert_to_tokens_newline (before after : str) (w : world) :
  convert_to_tokens (before ++ [chr "010"] ++ after) w
  = (fst (convert_to_tokens before w)
     ++ fst (convert_to_tokens after (snd (convert_to_tokens before w))),
     snd (convert_to_tokens after (snd (convert_to_tokens before w)))).
Proof.
  unfold convert_to_tokens, split_on. cbn [app].
  rewrite split_on_from_app, convert_lines_app.
  apply convert_lines_tokens_app.
Qed.

Lemma inline_word_level (elements : list node) :
  forallb word_level elements = true -> forallb inline elements = true.
Proof.
  induction elements as [|e rest IH]; [done|].
  cbn [forallb]. intros H. apply andb_prop in H as [He Hrest].
  rewrite (IH Hrest). by destruct e.
Qed.

Lemma parse_links_inline (line : str) (links : list (str * nat * nat))
    (elements : list node) (last_pos : nat) (w : world) :
  forallb inline elements = true ->
  forallb inline (fst (fst (parse_links line links elements last_pos w))) = true.
Proof.
  revert elements last_pos w.
  induction links as [|[[link start] stop] links IH]; intros elements last_pos w H;
    [done|].
  cbn [parse_links]. unfold mbind, M_bind, generate_token_id, dict_get.
  apply IH. rewrite forallb_app. cbn [forallb inline andb]. rewrite andb_true_r.
  destruct (last_pos <? start); [|done].
  by rewrite forallb_app, H, (inline_word_level _ (word_level_parse_by_word _)).
Qed.

Lemma note_token_inline (token : str) (elements : list node) :
  forallb inline elements = true -> note_token (Paragraph token elements) = true.
Proof.
  intros H. destruct elements as [|e rest]; [done|].
  by destruct e.
Qed.

Lemma parse_line_elements (line : str) (w : world) (elements : list node) :
  fst (parse_line line w) = AsParagraph elements ->
  (exists checked content,
     elements = Checkbox checked :: content /\ forallb word_level content = true)
  \/ forallb inline elements = true.
Proof.
  unfold parse_line. destruct (startswith (lit "* ") line); [done|].
  destruct (startswith (lit "- [ ] ") line || startswith (lit "- [x] ") line).
  { intros [= <-]. left. eexists _, _. split; [done|]. apply word_level_parse_by_word. }
  unfold mbind, M_bind.
  pose proof (parse_links_inline line (Re.finditer line) [] 0 w eq_refl) as Hinline.
  destruct (parse_links line (Re.finditer line) [] 0 w) as [[found last_pos] w'].
  cbn [fst] in Hinline. unfold mret, M_ret. cbn [fst]. intros [= <-]. right.
  destruct (last_pos <? length line); [|done].
  by rewrite forallb_app, Hinline, (inline_word_level _ (word_level_parse_by_word _)).
Qed.

Lemma line_token_note_token (w : world) (line : str) (token : node) :
  line_token w line token -> note_token token = true.
Proof.
  unfold line_token. destruct (strip line); [by intros ->|].
  destruct (fst (parse_line line (snd (generate_token_id w)))) as [item|elements] eqn:Hp.
  - intros ->. destruct (parse_line_as_list _ _ _ Hp) as [_ ->]. cbn [note_token].
    apply word_level_parse_by_word.
  - intros ->. destruct (parse_line_elements _ _ _ Hp) as [(checked & content & -> & H)|H].
    + exact H.
    + by apply note_token_inline.
Qed.

(** Every token of a note is a paragraph of words and references, a
    paragraph of a checkbox marker and words, or a list of one item of
    depth 0 whose one paragraph holds words: a reference never stands in a
    list item or after a checkbox, and lists are never nested. *)
Theorem convert_to_tokens_shape (content : str) (w : world) :
  Forall (fun token => note_token token = true) (fst (convert_to_tokens content w)).
Proof.
  unfold convert_to_tokens.
  destruct (convert_lines_tokens (split_on (chr "010") content) [] w)
    as (added & -> & Hall).
  cbn [app]. induction Hall as [|line token lines tokens (w' & _ & Htoken) _ IH];
    constructor; [|exact IH].
  eapply line_token_note_token, Htoken.
Qed.

(** *** Identifiers are not used twice *)

Lemma ids_drawn_nil (u : nat -> str) (lo hi : nat) : ids_drawn u lo hi [].
Proof. exists []. split; [done|]. split; constructor. Qed.

Lemma ids_drawn_weaken (u : nat -> str) (lo hi lo' hi' : nat) (ids : list str) :
  lo' <= lo -> hi <= hi' -> ids_drawn u lo hi ids -> ids_drawn u lo' hi' ids.
Proof.
  intros Hlo Hhi (draws & -> & Hnodup & Hrange). exists draws.
  split; [done|]. split; [done|].
  eapply Forall_impl; [exact Hrange|]. simpl. lia.
Qed.

Lemma ids_drawn_app (u : nat -> str) (lo mid hi : nat) (ids ids' : list str) :
  ids_drawn u lo mid ids -> ids_drawn u mid hi ids' ->
  lo <= mid -> mid <= hi ->
  ids_drawn u lo hi (ids ++ ids').
Proof.
  intros (draws & -> & Hnodup & Hrange) (draws' & -> & Hnodup' & Hrange') Hlo Hhi.
  exists (draws ++ draws'). split; [by rewrite map_app|]. split.
  - apply NoDup_app. split; [done|]. split; [|done].
    intros n Hn Hn'.
    rewrite Forall_forall in Hrange, Hrange'.
    specialize (Hrange n Hn). specialize (Hrange' n Hn'). lia.
  - apply Forall_app. split.
    + eapply Forall_impl; [exact Hrange|]. simpl. lia.
    + eapply Forall_impl; [exact Hrange'|]. simpl. lia.
Qed.

Lemma ids_drawn_one (u : nat -> str) (n : nat) : ids_drawn u n (S n) [slice_to_8 (u n)].
Proof.
  exists [n]. split; [done|]. split.
  - apply NoDup_singleton.
  - repeat constructor.
Qed.

Lemma ids_drawn_cons (u : nat -> str) (n hi : nat) (ids : list str) :
  ids_drawn u (S n) hi ids -> S n <= hi ->
  ids_drawn u n hi (slice_to_8 (u n) :: ids).
Proof.
  intros H Hhi. change (slice_to_8 (u n) :: ids) with ([slice_to_8 (u n)] ++ ids).
  eapply ids_drawn_app; [apply ids_drawn_one | exact H | lia | lia].
Qed.

Lemma ids_drawn_NoDup (u : nat -> str) (lo hi : nat) (ids : list str) :
  (forall i j, lo <= i < hi -> lo <= j < hi ->
               slice_to_8 (u i) = slice_to_8 (u j) -> i = j) ->
  ids_drawn u lo hi ids -> NoDup ids.
Proof.
  intros Hinj (draws & -> & Hnodup & Hrange).
  induction Hnodup as [|n draws Hn Hnodup IH]; [constructor|].
  apply Forall_cons in Hrange as [Hrange_n Hrange].
  cbn [map]. constructor; [|by apply IH].
  intros Hin. apply list_elem_of_fmap in Hin as (n' & Heq & Hn').
  rewrite Forall_forall in Hrange.
  apply Hinj in Heq; [by subst n' | done | by apply Hrange].
Qed.

Lemma token_ids_word_level (elements : list node) :
  forallb word_level elements = true -> concat (map token_ids elements) = [].
Proof.
  induction elements as [|e rest IH]; [done|].
  cbn [forallb map concat]. intros H. apply andb_prop in H as [He Hrest].
  rewrite (IH Hrest). by destruct e.
Qed.

Lemma token_ids_parse_by_word (line : str) :
  concat (map token_ids (parse_by_word line)) = [].
Proof. apply token_ids_word_level, word_level_parse_by_word. Qed.

Lemma parse_links_token_ids (line : str) (links : list (str * nat * nat))
    (elements : list node) (last_pos : nat) (u : nat -> str) (d : nat)
    (m : gmap str str) :
  exists ids,
    concat (map token_ids
              (fst (fst (parse_links line links elements last_pos (World u d m)))))
    = concat (map token_ids elements) ++ ids
    /\ ids_drawn u d (d + 2 * length links) ids.
Proof.
  revert elements last_pos d.
  induction links as [|[[link start] stop] links IH]; intros elements last_pos d.
  - exists []. split; [by rewrite app_nil_r | apply ids_drawn_nil].
  - cbn [parse_links]. unfold mbind, M_bind, generate_token_id, dict_get.
    cbn [uuid4 drawn mapping].
    edestruct IH as (ids & -> & Hids). exists (slice_to_8 (u (S d)) :: ids). split.
    + rewrite map_app, concat_app. cbn [map concat token_ids app].
      rewrite <- app_assoc. cbn [app]. f_equal.
      destruct (last_pos <? start); [|done].
      by rewrite map_app, concat_app, token_ids_parse_by_word, app_nil_r.
    + apply (ids_drawn_weaken u (S d) (S (S d) + 2 * length links));
        [lia | cbn [length]; lia |].
      apply ids_drawn_cons; [exact Hids | lia].
Qed.

Lemma parse_line_token_ids (line : str) (w : world) :
  ids_drawn (uuid4 w) (drawn w) (drawn (snd (parse_line line w)))
            (token_ids_of (fst (parse_line line w))).
Proof.
  unfold parse_line. destruct (startswith (lit "* ") line).
  { cbn [fst snd mbind M_bind generate_token_id mret M_ret].
    unfold mbind, M_bind, generate_token_id, mret, M_ret.
    cbn [fst snd drawn token_ids_of token_ids map concat].
    rewrite token_ids_parse_by_word. cbn [app]. apply ids_drawn_one. }
  destruct (startswith (lit "- [ ] ") line || startswith (lit "- [x] ") line).
  { unfold mret, M_ret. cbn [fst snd token_ids_of app map concat token_ids].
    rewrite token_ids_parse_by_word. apply ids_drawn_nil. }
  destruct w as [u d m]. unfold mbind, M_bind.
  destruct (parse_links_token_ids line (Re.finditer line) [] 0 u d m)
    as (ids & Hids & Hdrawn).
  pose proof (parse_links_world line (Re.finditer line) [] 0 (World u d m)) as Hw.
  destruct (parse_links line (Re.finditer line) [] 0 (World u d m))
    as [[elements last_pos] w'].
  cbn [fst snd uuid4 drawn mapping] in *. subst w'.
  unfold mret, M_ret. cbn [fst snd drawn token_ids_of uuid4].
  replace (concat (map token_ids
                     (if last_pos <? length line
                      then elements ++ parse_by_word (slice_from last_pos line)
                      else elements)))
    with ids; [exact Hdrawn|].
  cbn [map concat app] in Hids. rewrite <- Hids.
  destruct (last_pos <? length line); [|done].
  by rewrite map_app, concat_app, token_ids_parse_by_word, app_nil_r.
Qed.

Lemma convert_line_token_ids (paragraph : str) (w : world) :
  ids_drawn (uuid4 w) (drawn w) (drawn (snd (convert_line paragraph [] w)))
            (concat (map token_ids (fst (convert_line paragraph [] w)))).
Proof.
  unfold convert_line. destruct (strip paragraph).
  { cbn. apply ids_drawn_one. }
  unfold mbind, M_bind.
  pose proof (parse_line_token_ids paragraph (snd (generate_token_id w))) as Hids.
  pose proof (parse_line_draws paragraph (snd (generate_token_id w))) as (_ & Hle & _).
  cbn [generate_token_id fst snd uuid4 drawn mapping] in *.
  destruct (parse_line paragraph _) as [[item|elements] w'];
    cbn [fst snd token_ids_of mret M_ret app map concat token_ids] in *;
    unfold mret, M_ret; cbn [fst snd app map concat token_ids];
    rewrite app_nil_r.
  - eapply ids_drawn_weaken; [| |exact Hids]; lia.
  - apply ids_drawn_cons; [exact Hids | lia].
Qed.

Lemma convert_lines_token_ids (paragraphs : list str) (w : world) :
  ids_drawn (uuid4 w) (drawn w) (drawn (snd (convert_lines paragraphs [] w)))
            (concat (map token_ids (fst (convert_lines paragraphs [] w)))).
Proof.
  revert w. induction paragraphs as [|paragraph rest IH]; intros w.
  - apply ids_drawn_nil.
  - cbn [convert_lines]. unfold mbind, M_bind.
    pose proof (convert_line_token_ids paragraph w) as Hline.
    pose proof (convert_line_draws paragraph [] w) as (Hu & Hle & _).
    destruct (convert_line paragraph [] w) as [tokens w']. cbn [fst snd] in *.
    rewrite convert_lines_tokens_app. cbn [fst snd].
    rewrite map_app, concat_app.
    pose proof (convert_lines_draws rest [] w') as (_ & Hle' & _).
    eapply ids_drawn_app; [exact Hline | | exact Hle | exact Hle'].
    rewrite <- Hu. apply IH.
Qed.

(** No identifier drawn is used for two tokens: when the identifiers
    drawn during the conversion of a text differ from one another, the
    [tokenId] entries of its tokens, at every depth, are pairwise
    distinct. *)
Theorem convert_to_tokens_distinct_ids (content : str) (w : world) :
  (forall i j,
     drawn w <= i < drawn (snd (convert_to_tokens content w)) ->
     drawn w <= j < drawn (snd (convert_to_tokens content w)) ->
     token_id w i = token_id w j -> i = j) ->
  NoDup (concat (map token_ids (fst (convert_to_tokens content w)))).
Proof.
  intros Hinj. eapply ids_drawn_NoDup; [exact Hinj|].
  apply convert_lines_token_ids.
Qed.

Lemma convert_to_tokens_distinct_ids_witness :
  NoDup (concat (map token_ids
           (fst (convert_to_tokens (lit "a [[B]]" ++ [chr "010"] ++ lit "* c") w0)))).
Proof.
  apply (convert_to_tokens_distinct_ids (lit "a [[B]]" ++ [chr "010"] ++ lit "* c") w0).
  intros i j Hi Hj H.
  assert (Hd : drawn (snd (convert_to_tokens
                             (lit "a [[B]]" ++ [chr "010"] ++ lit "* c") w0)) = 5)
    by reflexivity.
  rewrite Hd in Hi, Hj.
  do 5 (destruct i as [|i];
        [do 5 (destruct j as [|j];
               [first [reflexivity | (vm_compute in H; discriminate H)]|]); lia|]).
  lia.
Defined.

(** ** Further properties of the link mapping *)

Lemma mapping_of_walk (walk : list (str * list str)) (w : world) :
  obsidian_to_ideaflow_link_mapping walk w
  = (mapping (snd (mapping_files (walked_files walk)
                                 (World (uuid4 w) (drawn w) ∅))),
     snd (mapping_files (walked_files walk) (World (uuid4 w) (drawn w) ∅))).
Proof.
  unfold obsidian_to_ideaflow_link_mapping, mbind, M_bind, dict_new, dict_read.
  rewrite <- mapping_walk_files.
  by destruct (mapping_walk walk _) as [[] w'].
Qed.

Lemma mapping_files_drawn (files : list str) (w : world) :
  uuid4 (snd (mapping_files files w)) = uuid4 w
  /\ drawn (snd (mapping_files files w))
     = drawn w + length (List.filter (endswith (lit ".md")) files).
Proof.
  revert w. induction files as [|filename files IH]; intros w.
  - simpl. split; [done | lia].
  - cbn [mapping_files List.filter]. unfold mbind, M_bind.
    destruct (endswith (lit ".md") filename).
    + unfold generate_token_id, dict_set. cbn [fst snd uuid4 drawn mapping].
      destruct (IH (World (uuid4 w) (S (drawn w))
                          (<[title_of filename := slice_to_8 (uuid4 w (drawn w))]>
                             (mapping w)))) as [-> ->].
      cbn [uuid4 drawn length]. split; [done | lia].
    + unfold mret, M_ret. apply IH.
Qed.

Lemma mapping_files_entries (files : list str) (w : world) (title note_id : str) :
  mapping (snd (mapping_files files w)) !! title = Some note_id ->
  mapping w !! title = Some note_id
  \/ exists i filename,
       List.filter (endswith (lit ".md")) files !! i = Some filename
       /\ title_of filename = title
       /\ note_id = token_id w (drawn w + i).
Proof.
  revert w. induction files as [|filename files IH]; intros w H; [by left|].
  cbn [mapping_files List.filter] in *. unfold mbind, M_bind in H.
  destruct (endswith (lit ".md") filename).
  - unfold generate_token_id, dict_set in H. cbn [fst snd uuid4 drawn mapping] in H.
    apply IH in H as [H|(i & f & Hf & Htitle & ->)].
    + cbn [mapping] in H. rewrite lookup_insert in H. case_decide as Hkey.
      * injection H as <-. right. exists 0, filename.
        split; [done|]. split; [done|]. by rewrite Nat.add_0_r.
      * by left.
    + right. exists (S i), f. split; [done|]. split; [done|].
      unfold token_id. cbn [uuid4 drawn]. f_equal. f_equal. lia.
  - unfold mret, M_ret in H. cbn [snd] in H. by apply IH.
Qed.

(** Every file of the folder that ends in [".md"] has an entry in the
    mapping returned, under its title. *)
Theorem mapping_has_every_file (walk : list (str * list str)) (w : world)
    (filename : str) :
  filename ∈ walked_files walk ->
  endswith (lit ".md") filename = true ->
  is_Some (fst (obsidian_to_ideaflow_link_mapping walk w) !! title_of filename).
Proof.
  intros Hin Hmd. rewrite mapping_of_walk. cbn [fst].
  by apply mapping_files_every_file.
Qed.

Lemma mapping_has_every_file_witness :
  is_Some (fst (obsidian_to_ideaflow_link_mapping
                  [(lit "vault", [lit "Note A.md"; lit "todo.txt"]);
                   (lit "vault/sub", [lit "#Note B.md"])] w0)
           !! title_of (lit "#Note B.md")).
Proof.
  apply (mapping_has_every_file
           [(lit "vault", [lit "Note A.md"; lit "todo.txt"]);
            (lit "vault/sub", [lit "#Note B.md"])] w0 (lit "#Note B.md")).
  - vm_compute. do 2 right. left.
  - reflexivity.
Defined.

(** Of the files with one title the last enumerated gives the entry: its
    identifier is the one drawn when its turn came, one draw per file that
    ends in [".md"] before it. *)
Theorem mapping_last_file_wins (walk : list (str * list str)) (w : world)
    (earlier later : list str) (filename : str) :
  walked_files walk = earlier ++ filename :: later ->
  endswith (lit ".md") filename = true ->
  (forall f, f ∈ later -> endswith (lit ".md") f = true ->
             title_of f <> title_of filename) ->
  fst (obsidian_to_ideaflow_link_mapping walk w) !! title_of filename
  = Some (token_id w (drawn w + length (List.filter (endswith (lit ".md")) earlier))).
Proof.
  intros Hwalk Hmd Hlater. rewrite mapping_of_walk, Hwalk. cbn [fst].
  rewrite (mapping_files_last_wins _ _ _ _ Hmd Hlater).
  unfold generate_token_id, token_id. cbn [fst].
  by destruct (mapping_files_drawn earlier (World (uuid4 w) (drawn w) ∅)) as [-> ->].
Qed.

Lemma mapping_last_file_wins_witness :
  fst (obsidian_to_ideaflow_link_mapping
         [(lit "vault", [lit "Note.md"; lit "todo.txt"]);
          (lit "vault/sub", [lit "#Note.md"; lit "Other.md"])] w0)
  !! title_of (lit "#Note.md")
  = Some (token_id w0 (drawn w0
            + length (List.filter (endswith (lit ".md"))
                                  [lit "Note.md"; lit "todo.txt"]))).
Proof.
  apply (mapping_last_file_wins
           [(lit "vault", [lit "Note.md"; lit "todo.txt"]);
            (lit "vault/sub", [lit "#Note.md"; lit "Other.md"])] w0
           [lit "Note.md"; lit "todo.txt"] [lit "Other.md"] (lit "#Note.md")).
  - reflexivity.
  - reflexivity.
  - intros f Hf _. apply list_elem_of_singleton in Hf as ->. by vm_compute.
Defined.

Lemma mapping_entries (walk : list (str * list str)) (w : world)
    (title note_id : str) :
  fst (obsidian_to_ideaflow_link_mapping walk w) !! title = Some note_id ->
  exists i filename,
    markdown_files walk !! i = Some filename
    /\ title_of filename = title
    /\ note_id = token_id w (drawn w + i).
Proof.
  rewrite mapping_of_walk. cbn [fst]. intros H.
  apply mapping_files_entries in H as [H|H]; [|exact H].
  cbn [mapping] in H. by rewrite lookup_empty in H.
Qed.

(** The mapping returned holds nothing but the notes of the folder: every
    key is the title of a file that ends in [".md"], and its value the
    identifier drawn at that file's turn. *)
Theorem mapping_entries_are_files (walk : list (str * list str)) (w : world)
    (title note_id : str) :
  fst (obsidian_to_ideaflow_link_mapping walk w) !! title = Some note_id ->
  exists i filename,
    markdown_files walk !! i = Some filename
    /\ title_of filename = title
    /\ note_id = token_id w (drawn w + i).
Proof. apply mapping_entries. Qed.

Lemma mapping_entries_are_files_witness :
  exists i filename,
    markdown_files [(lit "vault", [lit "todo.txt"; lit "Note A.md"])] !! i = Some filename
    /\ title_of filename = lit "Note A"
    /\ lit "id0-0000" = token_id w0 (drawn w0 + i).
Proof.
  apply (mapping_entries_are_files [(lit "vault", [lit "todo.txt"; lit "Note A.md"])] w0
           (lit "Note A") (lit "id0-0000")).
  reflexivity.
Defined.

(** Notes of different titles get different identifiers, as long as the
    identifiers drawn for the files differ from one another. *)
Theorem mapping_is_injective (walk : list (str * list str)) (w : world)
    (title title' note_id : str) :
  (forall i j, i < length (markdown_files walk) -> j < length (markdown_files walk) ->
               token_id w (drawn w + i) = token_id w (drawn w + j) -> i = j) ->
  fst (obsidian_to_ideaflow_link_mapping walk w) !! title = Some note_id ->
  fst (obsidian_to_ideaflow_link_mapping walk w) !! title' = Some note_id ->
  title = title'.
Proof.
  intros Hinj H H'.
  apply mapping_entries in H as (i & f & Hf & <- & ->).
  apply mapping_entries in H' as (j & f' & Hf' & <- & Heq).
  apply Hinj in Heq; [|by eapply lookup_lt_Some..].
  subst j. congruence.
Qed.

(** The builder draws one identifier for each file that ends in [".md"],
    also for a file whose entry a later file overwrites. *)
Theorem mapping_draw_count (walk : list (str * list str)) (w : world) :
  drawn (snd (obsidian_to_ideaflow_link_mapping walk w))
  = drawn w + length (markdown_files walk).
Proof.
  rewrite mapping_of_walk. cbn [snd].
  by destruct (mapping_files_drawn (walked_files walk) (World (uuid4 w) (drawn w) ∅))
    as [_ ->].
Qed.

Lemma without_not_elem (a : ascii) (s : str) : chr a ∉ without a s.
Proof.
  induction s as [|c s IH]; [apply not_elem_of_nil|].
  cbn [without]. destruct (is_chr a c) eqn:Hc; [done|].
  apply not_elem_of_cons. split; [|done].
  intros <-. unfold is_chr in Hc. by rewrite N.eqb_refl in Hc.
Qed.

Lemma title_of_no_hash (filename : str) : chr "#" ∉ title_of filename.
Proof. unfold title_of. rewrite replace_hash. apply without_not_elem. Qed.

(** No key of the mapping contains a hash sign, so a title with a hash
    sign, as in a link to a heading of a note, is never found in it. *)
Theorem mapping_has_no_hash_title (walk : list (str * list str)) (w : world)
    (title : str) :
  chr "#" ∈ title ->
  fst (obsidian_to_ideaflow_link_mapping walk w) !! title = None.
Proof.
  intros Hhash.
  destruct (fst (obsidian_to_ideaflow_link_mapping walk w) !! title) as [note_id|] eqn:H;
    [|done].
  apply mapping_entries in H as (i & f & _ & <- & _).
  by apply title_of_no_hash in Hhash.
Qed.

Lemma mapping_has_no_hash_title_witness :
  fst (obsidian_to_ideaflow_link_mapping [(lit "vault", [lit "Note#1.md"])] w0)
  !! lit "Note#1" = None.
Proof.
  apply (mapping_has_no_hash_title [(lit "vault", [lit "Note#1.md"])] w0 (lit "Note#1")).
  vm_compute. do 4 right. left.
Defined.

Lemma title_of_plain_name_witness :
  title_of (lit "#Note A" ++ lit ".md") = without "#" (lit "#Note A").
Proof. apply (title_of_plain_name (lit "#Note A")). reflexivity. Defined.

Lemma mapping_is_injective_witness : lit "Note A" = lit "Note A".
Proof.
  apply (mapping_is_injective
           [(lit "vault", [lit "Note A.md"; lit "Note B.md"])] w0
           (lit "Note A") (lit "Note A") (lit "id0-0000")).
  - intros i j Hi Hj H. change (length (markdown_files _)) with 2 in Hi, Hj.
    do 2 (destruct i as [|i];
          [do 2 (destruct j as [|j];
                 [first [reflexivity | (vm_compute in H; discriminate H)]|]); lia|]).
    lia.
  - reflexivity.
  - reflexivity.
Defined.

(** ** The conversion of a folder *)

Lemma notes_files_cons (o : outside) (root filename : str) (rest : list str)
    (notes : gmap str Note.t) (clock : nat) (w : world) :
  notes_files o root (filename :: rest) notes clock w
  = if endswith (lit ".md") filename
    then match read o root filename with
         | None => (Raised ReadError, w)
         | Some content =>
             match mapping w !! title_of filename with
             | None => (Raised KeyError, w)
             | Some note_id =>
                 notes_files o root rest
                   (<[note_id := file_note o filename content clock note_id w]> notes)
                   (S clock)
                   (snd (convert_to_tokens
                           (title_of filename ++ [chr "010"] ++ content) w))
             end
         end
    else notes_files o root rest notes clock w.
Proof.
  cbn [notes_files]. destruct (endswith (lit ".md") filename); [|done].
  destruct (read o root filename) as [content|]; [|done].
  unfold mbind, M_bind, dict_item.
  change (replace (lit "#") [] (replace (lit ".md") [] filename))
    with (title_of filename).
  destruct (mapping w !! title_of filename) as [note_id|]; [|done].
  unfold file_note.
  by destruct (convert_to_tokens _ w) as [tokens w'].
Qed.

Lemma notes_walk_cons (o : outside) (root : str) (files : list str)
    (rest : list (str * list str)) (notes : gmap str Note.t) (clock : nat) (w : world) :
  notes_walk o ((root, files) :: rest) notes clock w
  = match fst (notes_files o root files notes clock w) with
    | Raised e => (Raised e, snd (notes_files o root files notes clock w))
    | Returned (notes', clock') =>
        notes_walk o rest notes' clock' (snd (notes_files o root files notes clock w))
    end.
Proof.
  cbn [notes_walk]. unfold mbind, M_bind.
  by destruct (notes_files o root files notes clock w) as [[[notes' clock']|e] w'].
Qed.

Lemma convert_to_tokens_draws (content : str) (w : world) :
  draws_only w (snd (convert_to_tokens content w)).
Proof. apply convert_lines_draws. Qed.

Lemma notes_files_draws (o : outside) (root : str) (files : list str)
    (notes : gmap str Note.t) (clock : nat) (w : world) :
  draws_only w (snd (notes_files o root files notes clock w)).
Proof.
  revert notes clock w. induction files as [|filename files IH]; intros notes clock w.
  - apply draws_only_refl.
  - rewrite notes_files_cons. destruct (endswith (lit ".md") filename); [|apply IH].
    destruct (read o root filename) as [content|]; [|apply draws_only_refl].
    destruct (mapping w !! title_of filename); [|apply draws_only_refl].
    eapply draws_only_trans; [apply convert_to_tokens_draws | apply IH].
Qed.

Lemma notes_walk_draws (o : outside) (walk : list (str * list str))
    (notes : gmap str Note.t) (clock : nat) (w : world) :
  draws_only w (snd (notes_walk o walk notes clock w)).
Proof.
  revert notes clock w. induction walk as [|[root files] walk IH]; intros notes clock w.
  - apply draws_only_refl.
  - rewrite notes_walk_cons.
    pose proof (notes_files_draws o root files notes clock w) as Hdraws.
    destruct (fst (notes_files o root files notes clock w)) as [[notes' clock']|e];
      [|exact Hdraws].
    eapply draws_only_trans; [exact Hdraws | apply IH].
Qed.

(** How the run ends. *)

Lemma notes_files_outcome (o : outside) (root : str) (files : list str)
    (notes : gmap str Note.t) (clock : nat) (w : world) :
  match fst (notes_files o root files notes clock w) with
  | Returned _ =>
      forall f, f ∈ files -> endswith (lit ".md") f = true ->
                is_Some (read o root f) /\ is_Some (mapping w !! title_of f)
  | Raised ReadError =>
      exists f, f ∈ files /\ endswith (lit ".md") f = true /\ read o root f = None
  | Raised KeyError =>
      exists f, f ∈ files /\ endswith (lit ".md") f = true
                /\ mapping w !! title_of f = None
  end.
Proof.
  revert notes clock w. induction files as [|filename files IH]; intros notes clock w.
  - cbn. intros f Hf. by apply elem_of_nil in Hf.
  - rewrite notes_files_cons.
    assert (Hrest : forall notes1 clock1 w1, mapping w1 = mapping w ->
              match fst (notes_files o root files notes1 clock1 w1) with
              | Returned _ =>
                  forall f, f ∈ files -> endswith (lit ".md") f = true ->
                            is_Some (read o root f) /\ is_Some (mapping w !! title_of f)
              | Raised ReadError =>
                  exists f, f ∈ filename :: files /\ endswith (lit ".md") f = true
                            /\ read o root f = None
              | Raised KeyError =>
                  exists f, f ∈ filename :: files /\ endswith (lit ".md") f = true
                            /\ mapping w !! title_of f = None
              end).
    { intros notes1 clock1 w1 Hm. specialize (IH notes1 clock1 w1).
      destruct (fst (notes_files o root files notes1 clock1 w1)) as [result|[|]].
      - by rewrite <- Hm.
      - destruct IH as (f & Hf & Hmd & Hread). exists f.
        split; [apply elem_of_cons; by right | done].
      - destruct IH as (f & Hf & Hmd & Hkey). exists f.
        split; [apply elem_of_cons; by right | by rewrite <- Hm]. }
    destruct (endswith (lit ".md") filename) eqn:Hmd.
    + destruct (read o root filename) as [content|] eqn:Hread.
      2: { cbn. exists filename. split; [apply elem_of_cons; by left | done]. }
      destruct (mapping w !! title_of filename) as [note_id|] eqn:Hkey.
      2: { cbn. exists filename. split; [apply elem_of_cons; by left | done]. }
      specialize (Hrest (<[note_id := file_note o filename content clock note_id w]> notes)
                        (S clock)
                        (snd (convert_to_tokens
                                (title_of filename ++ [chr "010"] ++ content) w))).
      destruct (fst (notes_files o root files _ _ _)) as [result|[|]];
        [|apply Hrest, convert_to_tokens_draws..].
      intros f Hf Hf_md. apply elem_of_cons in Hf as [->|Hf].
      * by rewrite Hread, Hkey.
      * apply Hrest; [apply convert_to_tokens_draws | done..].
    + specialize (Hrest notes clock w eq_refl).
      destruct (fst (notes_files o root files notes clock w)) as [result|[|]];
        [|exact Hrest..].
      intros f Hf Hf_md. apply elem_of_cons in Hf as [->|Hf]; [congruence|].
      by apply Hrest.
Qed.

Lemma notes_walk_outcome (o : outside) (walk : list (str * list str))
    (notes : gmap str Note.t) (clock : nat) (w : world) :
  match fst (notes_walk o walk notes clock w) with
  | Returned _ =>
      forall root files f, (root, files) ∈ walk -> f ∈ files ->
        endswith (lit ".md") f = true ->
        is_Some (read o root f) /\ is_Some (mapping w !! title_of f)
  | Raised ReadError =>
      exists root files f, (root, files) ∈ walk /\ f ∈ files
        /\ endswith (lit ".md") f = true /\ read o root f = None
  | Raised KeyError =>
      exists root files f, (root, files) ∈ walk /\ f ∈ files
        /\ endswith (lit ".md") f = true /\ mapping w !! title_of f = None
  end.
Proof.
  revert notes clock w. induction walk as [|[root files] walk IH]; intros notes clock w.
  - cbn. intros r fs f Hin. by apply elem_of_nil in Hin.
  - rewrite notes_walk_cons.
    pose proof (notes_files_outcome o root files notes clock w) as Hfiles.
    destruct (notes_files_draws o root files notes clock w) as (_ & _ & Hm).
    destruct (fst (notes_files o root files notes clock w)) as [[notes1 clock1]|[|]].
    + specialize (IH notes1 clock1 (snd (notes_files o root files notes clock w))).
      destruct (fst (notes_walk o walk notes1 clock1 _)) as [result|[|]].
      * intros r fs f Hin Hf Hmd. apply elem_of_cons in Hin as [[= -> ->]|Hin].
        { by apply Hfiles. }
        rewrite <- Hm. by eapply IH.
      * destruct IH as (r & fs & f & Hin & Hf & Hmd & Hread).
        exists r, fs, f. split; [apply elem_of_cons; by right | done].
      * destruct IH as (r & fs & f & Hin & Hf & Hmd & Hkey).
        exists r, fs, f. split; [apply elem_of_cons; by right | by rewrite <- Hm].
    + cbn. destruct Hfiles as (f & Hf & Hmd & Hread).
      exists root, files, f. split; [apply elem_of_cons; by left | done].
    + cbn. destruct Hfiles as (f & Hf & Hmd & Hkey).
      exists root, files, f. split; [apply elem_of_cons; by left | done].
Qed.

Lemma obsidian_to_ideaflow_run (o : outside) (first_walk second_walk : list (str * list str))
    (w : world) :
  obsidian_to_ideaflow o first_walk second_walk w
  = (match fst (notes_walk o second_walk ∅ 0
                           (snd (obsidian_to_ideaflow_link_mapping first_walk w))) with
     | Raised e => Raised e
     | Returned (notes, _) => Returned (Output.Make (lit "08212023") notes)
     end,
     snd (notes_walk o second_walk ∅ 0
                     (snd (obsidian_to_ideaflow_link_mapping first_walk w)))).
Proof.
  unfold obsidian_to_ideaflow, mbind, M_bind.
  destruct (obsidian_to_ideaflow_link_mapping first_walk w) as [m w1]. cbn [snd].
  by destruct (notes_walk o second_walk ∅ 0 w1) as [[[notes clock]|e] w2].
Qed.

Lemma elem_of_walked_files (walk : list (str * list str)) (filename : str) :
  filename ∈ walked_files walk
  <-> exists root files, (root, files) ∈ walk /\ filename ∈ files.
Proof.
  unfold walked_files. induction walk as [|[root files] walk IH]; cbn [map concat snd].
  - split; [intros H; by apply elem_of_nil in H|].
    intros (r & fs & Hin & _). by apply elem_of_nil in Hin.
  - rewrite elem_of_app, IH. split.
    + intros [Hf|(r & fs & Hin & Hf)].
      * exists root, files. split; [apply elem_of_cons; by left | done].
      * exists r, fs. split; [apply elem_of_cons; by right | done].
    + intros (r & fs & Hin & Hf). apply elem_of_cons in Hin as [[= -> ->]|Hin].
      * by left.
      * right. by exists r, fs.
Qed.

Lemma elem_of_markdown_files (walk : list (str * list str)) (filename : str) :
  filename ∈ markdown_files walk
  <-> filename ∈ walked_files walk /\ endswith (lit ".md") filename = true.
Proof.
  unfold markdown_files. rewrite !list_elem_of_In, filter_In. done.
Qed.

Lemma built_mapping (walk : list (str * list str)) (w : world) :
  mapping (snd (obsidian_to_ideaflow_link_mapping walk w))
  = fst (obsidian_to_ideaflow_link_mapping walk w).
Proof. by rewrite mapping_of_walk. Qed.

Lemma built_mapping_known (first_walk : list (str * list str)) (w : world)
    (filename : str) :
  is_Some (fst (obsidian_to_ideaflow_link_mapping first_walk w) !! title_of filename)
  <-> exists f, f ∈ markdown_files first_walk /\ title_of f = title_of filename.
Proof.
  split.
  - intros [note_id Hkey]. rewrite mapping_of_walk in Hkey. cbn [fst] in Hkey.
    apply mapping_files_entries in Hkey as [Hkey|(i & f & Hf & Htitle & _)].
    + cbn [mapping] in Hkey. by rewrite lookup_empty in Hkey.
    + exists f. split; [|done]. eapply list_elem_of_lookup_2, Hf.
  - intros (f & Hf & <-). apply elem_of_markdown_files in Hf as [Hf Hmd].
    rewrite mapping_of_walk. cbn [fst]. by apply mapping_files_every_file.
Qed.




(** A note file of the second walk whose title no note file of the first
    walk has keeps the document from being built: the run ends with an
    exception, and when every note file of the second walk can be read,
    the exception is the [KeyError] of [mapping[title]]. *)
Theorem obsidian_to_ideaflow_key_error (o : outside)
    (first_walk second_walk : list (str * list str)) (w : world) (filename : str) :
  filename ∈ markdown_files second_walk ->
  (forall f, f ∈ markdown_files first_walk -> title_of f <> title_of filename) ->
  (exists e, fst (obsidian_to_ideaflow o first_walk second_walk w) = Raised e)
  /\ (readable o second_walk ->
      fst (obsidian_to_ideaflow o first_walk second_walk w) = Raised KeyError).
Proof.
  intros Hin Hnew. apply elem_of_markdown_files in Hin as [Hin Hmd].
  apply elem_of_walked_files in Hin as (root & files & Hin & Hf).
  rewrite obsidian_to_ideaflow_run. cbn [fst].
  pose proof (notes_walk_outcome o second_walk ∅ 0
                (snd (obsidian_to_ideaflow_link_mapping first_walk w))) as Hrun.
  destruct (fst (notes_walk o second_walk ∅ 0 _)) as [[notes clock]|[|]].
  - exfalso. destruct (Hrun root files filename Hin Hf Hmd) as [_ Hknown].
    rewrite built_mapping in Hknown.
    apply built_mapping_known in Hknown as (f & Hfirst & Htitle).
    by apply (Hnew f).
  - split; [by eexists|]. intros Hread.
    destruct Hrun as (r & fs & f & Hin' & Hf' & Hmd' & Hnone).
    destruct (Hread r fs f Hin' Hf' Hmd') as [content Hsome]. congruence.
  - split; [by eexists | done].
Qed.

Lemma obsidian_to_ideaflow_key_error_witness :
  (exists e,
     fst (obsidian_to_ideaflow o0 [(lit "vault", [lit "Note A.md"])] walk0 w0) = Raised e)
  /\ (readable o0 walk0 ->
      fst (obsidian_to_ideaflow o0 [(lit "vault", [lit "Note A.md"])] walk0 w0)
      = Raised KeyError).
Proof.
  apply (obsidian_to_ideaflow_key_error o0 [(lit "vault", [lit "Note A.md"])] walk0 w0
           (lit "Note B.md")).
  - vm_compute. right. left.
  - intros f Hf. apply list_elem_of_singleton in Hf as ->. by vm_compute.
Defined.

(** A note file of the second walk that cannot be opened or read keeps the
    document from being built: the run ends with an exception, and when
    every note file of the second walk has the title of a note file of the
    first, the exception is the one of the reading. *)
Theorem obsidian_to_ideaflow_read_error (o : outside)
    (first_walk second_walk : list (str * list str)) (w : world)
    (root : str) (files : list str) (filename : str) :
  (root, files) ∈ second_walk -> filename ∈ files ->
  endswith (lit ".md") filename = true ->
  read o root filename = None ->
  (exists e, fst (obsidian_to_ideaflow o first_walk second_walk w) = Raised e)
  /\ ((forall f, f ∈ markdown_files second_walk ->
         exists f', f' ∈ markdown_files first_walk /\ title_of f' = title_of f) ->
      fst (obsidian_to_ideaflow o first_walk second_walk w) = Raised ReadError).
Proof.
  intros Hin Hf Hmd Hnone. rewrite obsidian_to_ideaflow_run. cbn [fst].
  pose proof (notes_walk_outcome o second_walk ∅ 0
                (snd (obsidian_to_ideaflow_link_mapping first_walk w))) as Hrun.
  destruct (fst (notes_walk o second_walk ∅ 0 _)) as [[notes clock]|[|]].
  - exfalso. destruct (Hrun root files filename Hin Hf Hmd) as [[content Hsome] _].
    congruence.
  - split; [by eexists | done].
  - split; [by eexists|]. intros Htitles. exfalso.
    destruct Hrun as (r & fs & f & Hin' & Hf' & Hmd' & Hkey).
    rewrite built_mapping in Hkey.
    assert (Hknown : is_Some (fst (obsidian_to_ideaflow_link_mapping first_walk w)
                              !! title_of f)).
    { apply built_mapping_known, Htitles, elem_of_markdown_files.
      split; [|done]. apply elem_of_walked_files. by exists r, fs. }
    rewrite Hkey in Hknown. by destruct Hknown.
Qed.

Lemma obsidian_to_ideaflow_read_error_witness :
  (exists e,
     fst (obsidian_to_ideaflow o0
            [(lit "vault", [lit "Note A.md"; lit "Locked.md"])]
            [(lit "vault", [lit "Note A.md"; lit "Locked.md"])] w0) = Raised e)
  /\ ((forall f, f ∈ markdown_files [(lit "vault", [lit "Note A.md"; lit "Locked.md"])] ->
         exists f', f' ∈ markdown_files [(lit "vault", [lit "Note A.md"; lit "Locked.md"])]
                    /\ title_of f' = title_of f) ->
      fst (obsidian_to_ideaflow o0
             [(lit "vault", [lit "Note A.md"; lit "Locked.md"])]
             [(lit "vault", [lit "Note A.md"; lit "Locked.md"])] w0) = Raised ReadError).
Proof.
  apply (obsidian_to_ideaflow_read_error o0
           [(lit "vault", [lit "Note A.md"; lit "Locked.md"])]
           [(lit "vault", [lit "Note A.md"; lit "Locked.md"])] w0
           (lit "vault") [lit "Note A.md"; lit "Locked.md"] (lit "Locked.md")).
  - apply list_elem_of_singleton. reflexivity.
  - apply elem_of_cons. right. apply list_elem_of_singleton. reflexivity.
  - reflexivity.
  - reflexivity.
Defined.

(** The mapping is the same after the run as after its first pass. *)
Theorem obsidian_to_ideaflow_keeps_mapping (o : outside)
    (first_walk second_walk : list (str * list str)) (w : world) :
  mapping (snd (obsidian_to_ideaflow o first_walk second_walk w))
  = fst (obsidian_to_ideaflow_link_mapping first_walk w).
Proof.
  rewrite obsidian_to_ideaflow_run. cbn [snd].
  destruct (notes_walk_draws o second_walk ∅ 0
              (snd (obsidian_to_ideaflow_link_mapping first_walk w))) as (_ & _ & ->).
  apply built_mapping.
Qed.

(** What the notes of the document are. *)

Lemma notes_files_sound (o : outside) (root : str) (files : list str)
    (notes notes' : gmap str Note.t) (clock clock' : nat) (w : world) :
  fst (notes_files o root files notes clock w) = Returned (notes', clock') ->
  forall k note, notes' !! k = Some note ->
    notes !! k = Some note
    \/ exists filename content c w',
         filename ∈ files /\ endswith (lit ".md") filename = true
         /\ read o root filename = Some content
         /\ mapping w !! title_of filename = Some k
         /\ draws_only w w'
         /\ note = file_note o filename content c k w'.
Proof.
  revert notes clock w. induction files as [|filename files IH];
    intros notes clock w Hrun k note Hk.
  - cbn in Hrun. injection Hrun as <- <-. by left.
  - rewrite notes_files_cons in Hrun.
    assert (Hlater : forall w1 notes1 clock1,
              draws_only w w1 ->
              fst (notes_files o root files notes1 clock1 w1) = Returned (notes', clock') ->
              notes1 !! k = Some note
              \/ exists f content c w', f ∈ filename :: files
                   /\ endswith (lit ".md") f = true
                   /\ read o root f = Some content
                   /\ mapping w !! title_of f = Some k
                   /\ draws_only w w' /\ note = file_note o f content c k w').
    { intros w1 notes1 clock1 Hw1 Hrun1.
      destruct (IH _ _ _ Hrun1 k note Hk)
        as [H|(f & content & c & w' & Hf & Hmd & Hread & Hkey & Hw' & ->)]; [by left|].
      right. exists f, content, c, w'. split; [apply elem_of_cons; by right|].
      split; [done|]. split; [done|].
      destruct Hw1 as (Hu & Hd & Hm). rewrite <- Hm. split; [done|]. split; [|done].
      eapply draws_only_trans; [|exact Hw']. by repeat split. }
    destruct (endswith (lit ".md") filename) eqn:Hmd.
    + destruct (read o root filename) as [content|] eqn:Hread; [|done].
      destruct (mapping w !! title_of filename) as [note_id|] eqn:Hkey; [|done].
      destruct (Hlater _ _ _ (convert_to_tokens_draws _ _) Hrun) as [H|H]; [|by right].
      rewrite lookup_insert in H. case_decide as Heq; [|by left].
      subst note_id. injection H as Hnote. subst note.
      right. exists filename, content, clock, w.
      split; [apply elem_of_cons; by left|]. split; [done|]. split; [done|].
      split; [done|]. split; [apply draws_only_refl | done].
    + destruct (Hlater _ _ _ (draws_only_refl _) Hrun) as [H|H]; [by left | by right].
Qed.

Lemma notes_walk_sound (o : outside) (walk : list (str * list str))
    (notes notes' : gmap str Note.t) (clock clock' : nat) (w : world) :
  fst (notes_walk o walk notes clock w) = Returned (notes', clock') ->
  forall k note, notes' !! k = Some note ->
    notes !! k = Some note
    \/ exists root files filename content c w',
         (root, files) ∈ walk /\ filename ∈ files
         /\ endswith (lit ".md") filename = true
         /\ read o root filename = Some content
         /\ mapping w !! title_of filename = Some k
         /\ draws_only w w'
         /\ note = file_note o filename content c k w'.
Proof.
  revert notes clock w. induction walk as [|[root files] walk IH];
    intros notes clock w Hrun k note Hk.
  - cbn in Hrun. injection Hrun as <- <-. by left.
  - rewrite notes_walk_cons in Hrun.
    destruct (fst (notes_files o root files notes clock w))
      as [[notes1 clock1]|e] eqn:Hfiles; [|done].
    pose proof (notes_files_draws o root files notes clock w) as Hw1.
    destruct (IH _ _ _ Hrun k note Hk)
      as [H|(r & fs & f & content & c & w' & Hin & Hf & Hmd & Hread & Hkey & Hw' & ->)].
    + destruct (notes_files_sound _ _ _ _ _ _ _ _ Hfiles k note H)
        as [H'|(f & content & c & w' & Hf & Hmd & Hread & Hkey & Hw' & ->)]; [by left|].
      right. exists root, files, f, content, c, w'.
      split; [apply elem_of_cons; by left|]. done.
    + right. exists r, fs, f, content, c, w'. split; [apply elem_of_cons; by right|].
      split; [done|]. split; [done|]. split; [done|].
      destruct Hw1 as (Hu & Hd & Hm). rewrite <- Hm. split; [done|]. split; [|done].
      eapply draws_only_trans; [|exact Hw']. by repeat split.
Qed.

(** Every note of the document is the record of a note file of the second
    walk, stored under its own identifier, which is the one the mapping
    gives for the title of the file; its tokens are those of the title and
    the text read from the file, one line after the other. *)
Theorem obsidian_to_ideaflow_notes (o : outside)
    (first_walk second_walk : list (str * list str)) (w : world)
    (document : Output.t) (k : str) (note : Note.t) :
  fst (obsidian_to_ideaflow o first_walk second_walk w) = Returned document ->
  Output.notes document !! k = Some note ->
  Output.version document = lit "08212023"
  /\ Note.id note = k
  /\ exists root files filename content clock w',
       (root, files) ∈ second_walk /\ filename ∈ files
       /\ endswith (lit ".md") filename = true
       /\ read o root filename = Some content
       /\ fst (obsidian_to_ideaflow_link_mapping first_walk w) !! title_of filename
          = Some k
       /\ draws_only (snd (obsidian_to_ideaflow_link_mapping first_walk w)) w'
       /\ note = file_note o filename content clock k w'.
Proof.
  rewrite obsidian_to_ideaflow_run. cbn [fst].
  destruct (fst (notes_walk o second_walk ∅ 0 _)) as [[notes clock]|e] eqn:Hrun; [|done].
  intros [= <-]. cbn [Output.notes Output.version]. intros Hk.
  split; [done|].
  destruct (notes_walk_sound _ _ _ _ _ _ _ Hrun k note Hk)
    as [H|(root & files & f & content & c & w' & Hin & Hf & Hmd & Hread & Hkey & Hw' & ->)].
  { by rewrite lookup_empty in H. }
  split; [done|]. exists root, files, f, content, c, w'. rewrite <- built_mapping. done.
Qed.

Lemma obsidian_to_ideaflow_notes_witness :
  Output.version document0 = lit "08212023"
  /\ Note.id note0 = lit "id0-0000"
  /\ exists root files filename content clock w',
       (root, files) ∈ walk0 /\ filename ∈ files
       /\ endswith (lit ".md") filename = true
       /\ read o0 root filename = Some content
       /\ fst (obsidian_to_ideaflow_link_mapping walk0 w0) !! title_of filename
          = Some (lit "id0-0000")
       /\ draws_only (snd (obsidian_to_ideaflow_link_mapping walk0 w0)) w'
       /\ note0 = file_note o0 filename content clock (lit "id0-0000") w'.
Proof.
  apply (obsidian_to_ideaflow_notes o0 walk0 walk0 w0 document0 (lit "id0-0000") note0).
  - vm_compute. reflexivity.
  - vm_compute. reflexivity.
Defined.

Lemma notes_files_complete (o : outside) (root : str) (files : list str)
    (notes notes' : gmap str Note.t) (clock clock' : nat) (w : world) :
  fst (notes_files o root files notes clock w) = Returned (notes', clock') ->
  (forall k, is_Some (notes !! k) -> is_Some (notes' !! k))
  /\ (forall f, f ∈ files -> endswith (lit ".md") f = true ->
        exists k, mapping w !! title_of f = Some k /\ is_Some (notes' !! k)).
Proof.
  revert notes clock w. induction files as [|filename files IH];
    intros notes clock w Hrun.
  - cbn in Hrun. injection Hrun as <- <-. split; [done|].
    intros f Hf. by apply elem_of_nil in Hf.
  - rewrite notes_files_cons in Hrun.
    destruct (endswith (lit ".md") filename) eqn:Hmd.
    + destruct (read o root filename) as [content|] eqn:Hread; [|done].
      destruct (mapping w !! title_of filename) as [note_id|] eqn:Hkey; [|done].
      destruct (IH _ _ _ Hrun) as [Hkeep Hfiles].
      destruct (convert_to_tokens_draws
                  (title_of filename ++ [chr "010"] ++ content) w)
        as (_ & _ & Hm).
      split.
      * intros k Hk. apply Hkeep. rewrite lookup_insert. by case_decide.
      * intros f Hf Hf_md. apply elem_of_cons in Hf as [->|Hf].
        { exists note_id. split; [done|]. apply Hkeep. by rewrite lookup_insert_eq. }
        destruct (Hfiles f Hf Hf_md) as (k & Hk & Hnote).
        exists k. by rewrite <- Hm.
    + destruct (IH _ _ _ Hrun) as [Hkeep Hfiles]. split; [done|].
      intros f Hf Hf_md. apply elem_of_cons in Hf as [->|Hf]; [congruence|].
      by apply Hfiles.
Qed.

Lemma notes_walk_complete (o : outside) (walk : list (str * list str))
    (notes notes' : gmap str Note.t) (clock clock' : nat) (w : world) :
  fst (notes_walk o walk notes clock w) = Returned (notes', clock') ->
  (forall k, is_Some (notes !! k) -> is_Some (notes' !! k))
  /\ (forall f, f ∈ walked_files walk -> endswith (lit ".md") f = true ->
        exists k, mapping w !! title_of f = Some k /\ is_Some (notes' !! k)).
Proof.
  revert notes clock w. induction walk as [|[root files] walk IH];
    intros notes clock w Hrun.
  - cbn in Hrun. injection Hrun as <- <-. split; [done|].
    intros f Hf. by apply elem_of_nil in Hf.
  - rewrite notes_walk_cons in Hrun.
    destruct (fst (notes_files o root files notes clock w))
      as [[notes1 clock1]|e] eqn:Hfiles; [|done].
    destruct (notes_files_complete _ _ _ _ _ _ _ _ Hfiles) as [Hkeep1 Hfiles1].
    destruct (IH _ _ _ Hrun) as [Hkeep Hrest].
    destruct (notes_files_draws o root files notes clock w) as (_ & _ & Hm).
    split; [by intros k Hk; apply Hkeep, Hkeep1|].
    intros f Hf Hf_md. unfold walked_files in Hf. cbn [map concat snd] in Hf.
    apply elem_of_app in Hf as [Hf|Hf].
    + destruct (Hfiles1 f Hf Hf_md) as (k & Hk & Hnote).
      exists k. split; [done|]. by apply Hkeep.
    + destruct (Hrest f Hf Hf_md) as (k & Hk & Hnote).
      exists k. by rewrite <- Hm.
Qed.

(** When the document is built, every note file of the second walk has a
    note in it, under the identifier the mapping gives for its title; two
    files of one title share that note. *)
Theorem obsidian_to_ideaflow_every_file (o : outside)
    (first_walk second_walk : list (str * list str)) (w : world)
    (document : Output.t) (filename : str) :
  fst (obsidian_to_ideaflow o first_walk second_walk w) = Returned document ->
  filename ∈ markdown_files second_walk ->
  exists k,
    fst (obsidian_to_ideaflow_link_mapping first_walk w) !! title_of filename = Some k
    /\ is_Some (Output.notes document !! k).
Proof.
  rewrite obsidian_to_ideaflow_run. cbn [fst].
  destruct (fst (notes_walk o second_walk ∅ 0 _)) as [[notes clock]|e] eqn:Hrun; [|done].
  intros [= <-] Hin. apply elem_of_markdown_files in Hin as [Hin Hmd].
  destruct (notes_walk_complete _ _ _ _ _ _ _ Hrun) as [_ Hfiles].
  destruct (Hfiles filename Hin Hmd) as (k & Hk & Hnote).
  exists k. by rewrite <- built_mapping.
Qed.

Lemma obsidian_to_ideaflow_every_file_witness :
  exists k,
    fst (obsidian_to_ideaflow_link_mapping walk0 w0) !! title_of (lit "Note B.md") = Some k
    /\ is_Some (Output.notes document0 !! k).
Proof.
  apply (obsidian_to_ideaflow_every_file o0 walk0 walk0 w0 document0 (lit "Note B.md")).
  - vm_compute. reflexivity.
  - vm_compute. right. left.
Defined.

(** The date of a note *)

Lemma replace_chr (a : ascii) (s : str) : replace [chr a] [] s = without a s.
Proof.
  unfold replace. induction s as [|c s IH]; [done|].
  cbn [replace_from without startswith length Nat.sub app]. rewrite andb_true_r, IH.
  unfold is_chr. rewrite (N.eqb_sym (chr a) c). by destruct (c =? chr a)%N.
Qed.

Lemma split_on_from_whole (sep : N) (piece s : str) :
  forallb (fun c => negb (c =? sep)%N) s = true ->
  split_on_from sep piece s = [piece ++ s].
Proof.
  revert piece. induction s as [|c s IH]; intros piece H.
  - by rewrite app_nil_r.
  - cbn [forallb] in H. apply andb_prop in H as [Hc H].
    rewrite negb_true_iff in Hc. cbn [split_on_from]. rewrite Hc, (IH _ H).
    by rewrite <- app_assoc.
Qed.

(** [inserted_at] is what stands before the first [T] of the timestamp,
    without its hyphens: of [2023-08-21T10:00:00Z] the digits [20230821]. *)
Theorem inserted_at_of_date (date time : str) :
  forallb (fun c => negb (is_chr "T" c)) date = true ->
  inserted_at_of (date ++ [chr "T"] ++ time) = without "-" date.
Proof.
  intros Hdate. unfold inserted_at_of, split_on. cbn [app].
  rewrite split_on_from_app, (split_on_from_whole _ [] date Hdate). cbn [app hd].
  apply (replace_chr "-").
Qed.

Lemma inserted_at_of_date_witness :
  inserted_at_of (lit "2023-08-21" ++ [chr "T"] ++ lit "10:00:00.000001Z")
  = without "-" (lit "2023-08-21").
Proof.
  apply (inserted_at_of_date (lit "2023-08-21") (lit "10:00:00.000001Z")). reflexivity.
Defined.

(** ** Links and the mapping of the folder *)

Lemma parse_line_reference (line : str) (w : world) (i : nat) (title : str)
    (start stop : nat) :
  default_line line = true ->
  Re.finditer line !! i = Some (link_text title, start, stop) ->
  spaceships_of (fst (parse_line line w)) !! i
  = Some (Spaceship (link_target w title (drawn w + 2 * i))
                    (token_id w (S (drawn w + 2 * i)))).
Proof.
  intros Hdefault Hi.
  rewrite (parse_line_references _ _ Hdefault), (lookup_link_references _ _ _ _ _ _ _ Hi).
  by rewrite slice_2_m2_link_text.
Qed.

(** A link to the title of a note file of the folder is resolved: in the
    world the builder leaves, the reference has the identifier of that
    file's title as target. *)
Theorem link_to_note_resolves (walk : list (str * list str)) (w : world)
    (filename line : str) (i start stop : nat) :
  filename ∈ markdown_files walk ->
  default_line line = true ->
  Re.finditer line !! i = Some (link_text (title_of filename), start, stop) ->
  exists note_id token,
    fst (obsidian_to_ideaflow_link_mapping walk w) !! title_of filename = Some note_id
    /\ spaceships_of
         (fst (parse_line line (snd (obsidian_to_ideaflow_link_mapping walk w)))) !! i
       = Some (Spaceship note_id token).
Proof.
  intros Hin Hdefault Hi. apply elem_of_markdown_files in Hin as [Hin Hmd].
  rewrite (parse_line_reference _ _ _ _ _ _ Hdefault Hi).
  unfold link_target. rewrite built_mapping, mapping_of_walk. cbn [fst].
  destruct (mapping_files_every_file (walked_files walk)
              (World (uuid4 w) (drawn w) ∅) filename Hin Hmd) as [note_id ->].
  by eexists _, _.
Qed.

Lemma link_to_note_resolves_witness :
  exists note_id token,
    fst (obsidian_to_ideaflow_link_mapping walk0 w0) !! title_of (lit "Note B.md")
    = Some note_id
    /\ spaceships_of
         (fst (parse_line (lit "Hello [[Note B]]")
                          (snd (obsidian_to_ideaflow_link_mapping walk0 w0)))) !! 0
       = Some (Spaceship note_id token).
Proof.
  apply (link_to_note_resolves walk0 w0 (lit "Note B.md") (lit "Hello [[Note B]]") 0 6 16).
  - vm_compute. right. left.
  - reflexivity.
  - reflexivity.
Defined.

(** A link whose title contains a hash sign, as a link to a heading of a
    note does, is never resolved against the mapping of a folder: its
    target is the placeholder drawn for it. *)
Theorem link_with_hash_is_unresolved (walk : list (str * list str)) (w : world)
    (title line : str) (i start stop : nat) :
  chr "#" ∈ title ->
  default_line line = true ->
  Re.finditer line !! i = Some (link_text title, start, stop) ->
  let w' := snd (obsidian_to_ideaflow_link_mapping walk w) in
  spaceships_of (fst (parse_line line w')) !! i
  = Some (Spaceship (token_id w' (drawn w' + 2 * i))
                    (token_id w' (S (drawn w' + 2 * i)))).
Proof.
  intros Hhash Hdefault Hi w'. subst w'.
  rewrite (parse_line_reference _ _ _ _ _ _ Hdefault Hi).
  unfold link_target. rewrite built_mapping.
  destruct (fst (obsidian_to_ideaflow_link_mapping walk w) !! title) as [note_id|] eqn:H;
    [|done].
  apply mapping_entries in H as (j & f & _ & <- & _).
  by apply title_of_no_hash in Hhash.
Qed.

Lemma link_with_hash_is_unresolved_witness :
  spaceships_of
    (fst (parse_line (lit "see [[Note B#Intro]]")
                     (snd (obsidian_to_ideaflow_link_mapping walk0 w0)))) !! 0
  = Some (Spaceship (lit "id2-0000") (lit "id3-0000")).
Proof.
  apply (link_with_hash_is_unresolved walk0 w0 (lit "Note B#Intro")
           (lit "see [[Note B#Intro]]") 0 4 20).
  - vm_compute. do 6 right. left.
  - reflexivity.
  - reflexivity.
Defined.
